(** * Gutenberg Galaxy: the data and interaction logic of [assets/script.js]

    A shallow embedding of the parts of the script that decide what is
    indexed, selected and filtered: the catalogue fetch loop, the subject
    tokenizer and word index of [loadData], the year filter and planet
    group handling of [showPlanetaryPanel], the slider handler
    [updateTimeline] and the year shown by [showTooltip].

    Rendering (materials, geometries, colours, audio, tweens) is left out;
    the scene graph is kept as far as the script reads it back:
    object identity, [name], [userData], [visible], [position] and
    [children]. *)

From Stdlib Require Import String Ascii List ZArith NArith Bool Arith Lia.
From Stdlib Require Import Permutation.
From Equations Require Import Equations.
Import ListNotations.

Set Implicit Arguments.
Set Warnings "-register-all".

(* ===================================================================== *)
(** * Part I: the program *)
(* ===================================================================== *)

(** ** JavaScript strings

    A JavaScript string is a sequence of UTF-16 code units. *)

Definition codeUnit := N.
Definition jsstring := list codeUnit.

(** String literals of the script, written as Rocq strings. *)
Definition lit (s : string) : jsstring :=
  map N_of_ascii (list_ascii_of_string s).

Fixpoint str_eqb (a b : jsstring) : bool :=
  match a, b with
  | [], [] => true
  | x :: a', y :: b' => (x =? y)%N && str_eqb a' b'
  | _, _ => false
  end.

(** A string is truthy when it is not empty ([if (word)], [while (nextPage ...)]). *)
Definition truthyStr (s : jsstring) : bool :=
  match s with [] => false | _ :: _ => true end.

(** [s.split(sep)] for a one-character separator, generalised to any
    class of separator characters: a new piece starts after every
    separator, so the empty string gives one empty piece and two adjacent
    separators give an empty piece between them. *)
Fixpoint splitOn (isSep : codeUnit -> bool) (s : jsstring) : list jsstring :=
  match s with
  | [] => [[]]
  | c :: s' =>
      if isSep c then [] :: splitOn isSep s'
      else match splitOn isSep s' with
           | p :: ps => (c :: p) :: ps
           | [] => [[c]]
           end
  end.

Definition SPACE : codeUnit := 32%N.
Definition isSpace (c : codeUnit) : bool := (c =? SPACE)%N.

(** [subject.split(' ')] *)
Definition split_space (s : jsstring) : list jsstring := splitOn isSpace s.

(** The character class [a-zA-Z] of the regular expression. *)
Definition isUpper (c : codeUnit) : bool := (65 <=? c)%N && (c <=? 90)%N.
Definition isLower (c : codeUnit) : bool := (97 <=? c)%N && (c <=? 122)%N.
Definition isAlpha (c : codeUnit) : bool := isLower c || isUpper c.

(** [word.replace(/[^a-zA-Z]/g, '')]: every code unit outside the class
    is deleted. *)
Definition replaceNonAlpha (w : jsstring) : jsstring := filter isAlpha w.

(** [toLowerCase()] on the strings that reach it here, which hold letters
    of [a-zA-Z] only: an upper-case letter moves to its lower-case one. *)
Definition lowerUnit (c : codeUnit) : codeUnit :=
  if isUpper c then (c + 32)%N else c.
Definition toLowerCase (w : jsstring) : jsstring := map lowerUnit w.

(** [word.replace(/[^a-zA-Z]/g, '').toLowerCase()] *)
Definition normalize (w : jsstring) : jsstring :=
  toLowerCase (replaceNonAlpha w).

(** ** Book records of the catalogue (Gutendex JSON)

    [birth_year] and [death_year] are a number or [null]; [None] stands
    for [null] and for an absent field alike (both are falsy). *)

Record Author := {
  a_name : jsstring;
  birth_year : option Z;
  death_year : option Z
}.

(** [subjects] is [None] for a record that has no such field
    ([book.subjects] is then [undefined]). *)
Record Book := {
  title : jsstring;
  authors : list Author;
  subjects : option (list jsstring);
  languages : list jsstring;
  download_count : Z
}.

(** ** Exceptions *)

Inductive jsError :=
| TypeError (what : string)
| FetchError (url : jsstring).

Inductive result (A : Type) :=
| Ok (a : A)
| Throw (e : jsError).
Arguments Ok {A} a.
Arguments Throw {A} e.

Definition rbind {A B} (r : result A) (k : A -> result B) : result B :=
  match r with
  | Ok a => k a
  | Throw e => Throw e
  end.

Declare Scope result_scope.
Delimit Scope result_scope with result.
Notation "x <- r ;; k" := (rbind r (fun x => k))
  (at level 61, r at next level, right associativity) : result_scope.

(** [xs.forEach(f)] where [f] updates an accumulator and may throw: the
    first exception ends the loop. *)
Fixpoint forEachR {A Acc} (f : Acc -> A -> result Acc) (xs : list A)
    (s : Acc) : result Acc :=
  match xs with
  | [] => Ok s
  | x :: xs' => rbind (f s x) (forEachR f xs')
  end.

(** ** The word map of [loadData]

    [new Map()] keeps its keys in insertion order, and
    [Array.from(wordMap.entries())] reads them in that order, so the map
    is an association list: [set] on a present key replaces the value in
    place, on a new key it appends. *)

Record MapEntry := {
  count : nat;
  books : list Book
}.

Definition WordMap := list (jsstring * MapEntry).

Fixpoint Map_get (k : jsstring) (m : WordMap) : option MapEntry :=
  match m with
  | [] => None
  | (k', v) :: m' => if str_eqb k k' then Some v else Map_get k m'
  end.

Definition Map_has (k : jsstring) (m : WordMap) : bool :=
  match Map_get k m with Some _ => true | None => false end.

Fixpoint Map_set (k : jsstring) (v : MapEntry) (m : WordMap) : WordMap :=
  match m with
  | [] => [(k, v)]
  | (k', v') :: m' =>
      if str_eqb k k' then (k', v) :: m' else (k', v') :: Map_set k v m'
  end.

(** [wordMap.get(word)] followed by a property access: [undefined] there
    is a TypeError. *)
Definition getEntry (k : jsstring) (m : WordMap) : result MapEntry :=
  match Map_get k m with
  | Some e => Ok e
  | None => Throw (TypeError "wordMap.get(word) is undefined")
  end.

(** Body of [words.forEach((word) => ...)] for one piece of one subject of
    [book]. The two assignments through [wordMap.get(word)] change the
    entry object that the map holds. *)
Definition indexWord (book : Book) (m : WordMap) (word : jsstring)
  : result WordMap :=
  let word := normalize word in
  if truthyStr word then
    let m := if negb (Map_has word m)
             then Map_set word {| count := 0; books := [] |} m
             else m in
    (e <- getEntry word m ;;
     let m := Map_set word {| count := count e + 1; books := books e |} m in
     e <- getEntry word m ;;
     Ok (Map_set word {| count := count e; books := books e ++ [book] |} m))%result
  else Ok m.

(** Body of [subjects.forEach((subject) => ...)]. *)
Definition indexSubject (book : Book) (m : WordMap) (subject : jsstring)
  : result WordMap :=
  forEachR (indexWord book) (split_space subject) m.

(** Body of [allBooks.forEach((book) => ...)]: [subjects.forEach] on
    [undefined] throws. *)
Definition indexBook (m : WordMap) (book : Book) : result WordMap :=
  match subjects book with
  | None => Throw (TypeError "subjects is undefined")
  | Some subjs => forEachR (indexSubject book) subjs m
  end.

Definition buildWordMap (allBooks : list Book) : result WordMap :=
  forEachR indexBook allBooks [].

(** Elements of [wordsData]. *)
Record WordData := {
  text : jsstring;
  frequency : nat;
  wd_books : list Book
}.

(** [Array.from(wordMap.entries()).map(([text, data]) => ...)] *)
Definition toWordsData (m : WordMap) : list WordData :=
  map (fun '(t, data) =>
         {| text := t; frequency := count data; wd_books := books data |}) m.

(** The indexing pass of [loadData], from the fetched books to the value
    assigned to [wordsData]. *)
Definition indexBooks (allBooks : list Book) : result (list WordData) :=
  (m <- buildWordMap allBooks ;; Ok (toWordsData m))%result.

(** ** The catalogue fetch loop of [loadData]

    A response carries [results] and [next] (a URL or [null]). The remote
    catalogue answers the k-th request of the page (counted from 0) for
    a URL; [None] is a request whose [fetch] or [response.json()]
    rejects. *)

Record Page := {
  results : list Book;
  next : option jsstring
}.

Definition Remote := nat -> jsstring -> option Page.

Definition CATALOG_URL : jsstring := lit "https://gutendex.com/books/".

(** Truthiness of [nextPage]: a non-empty string; [null] and [''] are
    falsy. *)
Definition truthyUrl (v : option jsstring) : option jsstring :=
  match v with
  | Some u => if truthyStr u then Some u else None
  | None => None
  end.

(** [while (nextPage && pageCount < 3) { ... }]. Besides [allBooks] the
    model returns the URLs passed to [fetch], in the order of the calls. *)
Equations? fetchLoop (remote : Remote) (allBooks : list Book)
    (nextPage : option jsstring) (pageCount : nat) (requests : list jsstring)
  : list jsstring * result (list Book) by wf (3 - pageCount) lt :=
  fetchLoop remote allBooks nextPage pageCount requests
    with truthyUrl nextPage, lt_dec pageCount 3 := {
    | Some url, left Hlt with remote pageCount url := {
        | Some data :=
            fetchLoop remote (allBooks ++ results data) (next data)
                      (S pageCount) (requests ++ [url]);
        | None := (requests ++ [url], Throw (FetchError url)) };
    | _, _ := (requests, Ok allBooks) }.
Proof. destruct pageCount as [|[|[|n]]]; lia. Qed.

(** The loop from its initial values. *)
Definition fetchBooks (remote : Remote) : list jsstring * result (list Book) :=
  fetchLoop remote [] (Some CATALOG_URL) 0 [].

(** ** Effective year of a book

    [a || b] on years: a number is truthy unless it is 0. *)
Definition truthyNum (v : option Z) : option Z :=
  match v with
  | Some z => if (z =? 0)%Z then None else Some z
  | None => None
  end.

(** [book.authors[0]] and the two conditionals below it. *)
Definition firstAuthor (book : Book) : option Author := nth_error (authors book) 0.

Definition deathYearOf (author : option Author) : option Z :=
  match author with Some a => death_year a | None => None end.

Definition birthYearOf (author : option Author) : option Z :=
  match author with Some a => birth_year a | None => None end.

(** [deathYear || birthYear], the part shared by the three places that
    compute a year; [None] when both are falsy. *)
Definition authorYear (book : Book) : option Z :=
  let author := firstAuthor book in
  match truthyNum (deathYearOf author) with
  | Some y => Some y
  | None => truthyNum (birthYearOf author)
  end.

(** [deathYear || birthYear || 1900] in [showPlanetaryPanel] and
    [updateTimeline]. *)
Definition filterYear (book : Book) : Z :=
  match authorYear book with Some y => y | None => 1900%Z end.

(** [deathYear || birthYear || 'Unknown'] in [showTooltip]. *)
Inductive TooltipYear :=
| YearNumber (y : Z)
| YearUnknown.

Definition tooltipYear (book : Book) : TooltipYear :=
  match authorYear book with Some y => YearNumber y | None => YearUnknown end.

Record TimelineData := {
  startYear : Z;
  endYear : Z
}.

(** [year >= timelineData.startYear && year <= timelineData.endYear] *)
Definition inTimeline (tl : TimelineData) (book : Book) : bool :=
  let year := filterYear book in
  (startYear tl <=? year)%Z && (year <=? endYear tl)%Z.

(** [wordData.books.filter(...)] of [showPlanetaryPanel]. *)
Definition panelBooks (tl : TimelineData) (wordData : WordData) : list Book :=
  filter (inTimeline tl) (wd_books wordData).

(** [relevantBooks.length > 0] of [updateTimeline]. *)
Definition wordVisible (tl : TimelineData) (wordData : WordData) : bool :=
  (0 <? length (filter (inTimeline tl) (wd_books wordData)))%nat.

(** ** The scene graph (three.js [Object3D])

    Of an object the script reads back its identity, [name], [userData],
    [visible], [position] and [children]. The [id] stands for the identity
    of the JavaScript object (three.js numbers its objects the same way).

    Positions are kept as the script's arguments to the floating-point
    layout formulas, not as evaluated coordinates. *)

Inductive Position :=
| Origin
| SphericalCoords (radius : Z) (index total : nat)
| Orbit (center : Position) (radius : Z) (index total : nat).

(** [mesh.userData = { wordData }] and [mesh.userData = { book }]; a field
    that was not set reads as [undefined]. *)
Record UserData := {
  ud_wordData : option WordData;
  ud_book : option Book
}.

Definition emptyUserData : UserData :=
  {| ud_wordData := None; ud_book := None |}.

Inductive Object3D := mkObject3D {
  id : nat;
  name : string;
  userData : UserData;
  visible : bool;
  position : Position;
  children : list Object3D
}.

Definition PLANET_GROUP : string := "planetGroup".
Definition INTERACTION_SPHERE : string := "interactionSphere".

Definition set_children (o : Object3D) (cs : list Object3D) : Object3D :=
  mkObject3D (id o) (name o) (userData o) (visible o) (position o) cs.

Definition set_visible (o : Object3D) (v : bool) : Object3D :=
  mkObject3D (id o) (name o) (userData o) v (position o) (children o).

Definition set_position (o : Object3D) (p : Position) : Object3D :=
  mkObject3D (id o) (name o) (userData o) (visible o) p (children o).

(** [new THREE.Group()], [new THREE.Mesh(...)], a light: a new object
    with the defaults of three.js. *)
Definition newObject (i : nat) : Object3D :=
  mkObject3D i "" emptyUserData true Origin [].

(** The first result of [f] along a list: the loop over [children] in a
    depth-first search, which returns as soon as a child has a match. *)
Definition firstSome {A B} (f : A -> option B) : list A -> option B :=
  fix go (l : list A) : option B :=
    match l with
    | [] => None
    | x :: l' => match f x with
                 | Some r => Some r
                 | None => go l'
                 end
    end.

(** [object.getObjectByName(nm)]: the object itself if its name matches,
    else the first match of a depth-first search through the children. *)
Fixpoint getObjectByName (nm : string) (o : Object3D) : option Object3D :=
  match o with
  | mkObject3D _ n _ _ _ cs =>
      if String.eqb n nm then Some o
      else firstSome (getObjectByName nm) cs
  end.

(** The object that a variable holding a reference to object [i] denotes. *)
Fixpoint getObjectById (i : nat) (o : Object3D) : option Object3D :=
  match o with
  | mkObject3D j _ _ _ _ cs =>
      if (j =? i)%nat then Some o
      else firstSome (getObjectById i) cs
  end.

(** Assignment through a reference to object [i]: the object is replaced
    by [f] of it where it sits in the graph. *)
Fixpoint modifyById (i : nat) (f : Object3D -> Object3D) (o : Object3D)
  : Object3D :=
  match o with
  | mkObject3D j n u v p cs =>
      if (j =? i)%nat then f o
      else mkObject3D j n u v p (map (modifyById i f) cs)
  end.

(** [parent.add(child)] for a child that has no parent yet. *)
Definition add (parent child : Object3D) : Object3D :=
  set_children parent (children parent ++ [child]).

(** [parent.remove(child)]: [children.indexOf(child)] finds the child by
    identity and [splice] takes that one element out. *)
Fixpoint removeChild (i : nat) (cs : list Object3D) : list Object3D :=
  match cs with
  | [] => []
  | c :: cs' => if (id c =? i)%nat then cs' else c :: removeChild i cs'
  end.

Definition remove (parent child : Object3D) : Object3D :=
  set_children parent (removeChild (id child) (children parent)).

(** ** The state of the page

    The globals of the script ([wordsData], [wordGroup], [timelineData])
    and the scene. [wordGroup] holds a reference: the group object itself
    is in the scene, where [createWordCloud] puts it. [gui] tells whether
    [createTimeline] has made the sliders; [network] lists the URLs
    fetched and [console] what [console.error] received. *)

Record App := {
  scene : Object3D;
  wordsData : list WordData;
  wordGroup : option nat;
  timelineData : TimelineData;
  gui : bool;
  nextId : nat;
  network : list jsstring;
  console : list jsError
}.

Definition set_scene (sc : Object3D) (s : App) : App :=
  Build_App sc (wordsData s) (wordGroup s) (timelineData s) (gui s)
            (nextId s) (network s) (console s).

Definition set_wordsData (wd : list WordData) (s : App) : App :=
  Build_App (scene s) wd (wordGroup s) (timelineData s) (gui s)
            (nextId s) (network s) (console s).

Definition set_wordGroup (g : option nat) (s : App) : App :=
  Build_App (scene s) (wordsData s) g (timelineData s) (gui s)
            (nextId s) (network s) (console s).

Definition set_timelineData (tl : TimelineData) (s : App) : App :=
  Build_App (scene s) (wordsData s) (wordGroup s) tl (gui s)
            (nextId s) (network s) (console s).

Definition set_gui (g : bool) (s : App) : App :=
  Build_App (scene s) (wordsData s) (wordGroup s) (timelineData s) g
            (nextId s) (network s) (console s).

Definition set_nextId (n : nat) (s : App) : App :=
  Build_App (scene s) (wordsData s) (wordGroup s) (timelineData s) (gui s)
            n (network s) (console s).

Definition set_network (l : list jsstring) (s : App) : App :=
  Build_App (scene s) (wordsData s) (wordGroup s) (timelineData s) (gui s)
            (nextId s) l (console s).

Definition set_console (l : list jsError) (s : App) : App :=
  Build_App (scene s) (wordsData s) (wordGroup s) (timelineData s) (gui s)
            (nextId s) (network s) l.

(** Statements of the script: they change the state and return or throw.
    What a statement changed before it threw stays changed. *)
Definition M (A : Type) := App -> result A * App.

Definition ret {A} (a : A) : M A := fun s => (Ok a, s).

Definition bind {A B} (m : M A) (k : A -> M B) : M B :=
  fun s => match m s with
           | (Ok a, s') => k a s'
           | (Throw e, s') => (Throw e, s')
           end.

Definition throw {A} (e : jsError) : M A := fun s => (Throw e, s).
Definition gets {A} (f : App -> A) : M A := fun s => (Ok (f s), s).
Definition modify (f : App -> App) : M unit := fun s => (Ok tt, f s).

Definition liftR {A} (r : result A) : M A := fun s => (r, s).

(** [try { m } catch (error) { h(error) }] *)
Definition tryCatch (m : M unit) (h : jsError -> M unit) : M unit :=
  fun s => match m s with
           | (Ok a, s') => (Ok a, s')
           | (Throw e, s') => h e s'
           end.

Declare Scope js_scope.
Delimit Scope js_scope with js.
Notation "x <- m ;; k" := (bind m (fun x => k))
  (at level 61, m at next level, right associativity) : js_scope.
Notation "m ;; k" := (bind m (fun _ => k))
  (at level 61, right associativity) : js_scope.
Open Scope js_scope.

(** The state a statement leaves behind, and what it returned. *)
Definition exec {A} (m : M A) (s : App) : App := snd (m s).
Definition outcome {A} (m : M A) (s : App) : result A := fst (m s).

(** Identity of a newly constructed object. *)
Definition fresh : M nat :=
  fun s => (Ok (nextId s), set_nextId (S (nextId s)) s).

(** [xs.forEach((x, index) => ...)] where the body works on a local
    object [acc] and on the state. *)
Fixpoint forEachIdx {A Acc} (f : Acc -> A -> nat -> M Acc) (xs : list A)
    (index : nat) (acc : Acc) : M Acc :=
  match xs with
  | [] => ret acc
  | x :: xs' => acc' <- f acc x index ;; forEachIdx f xs' (S index) acc'
  end.

(** ** Building the word cloud *)

(** [createWordMesh(wordData)]: the text mesh and, as its child, the
    invisible sphere named ['interactionSphere']. *)
Definition createWordMesh (wordData : WordData) : M Object3D :=
  meshId <- fresh ;;
  sphereId <- fresh ;;
  let sphere :=
    mkObject3D sphereId INTERACTION_SPHERE emptyUserData true Origin [] in
  let mesh := add (newObject meshId) sphere in
  ret (mkObject3D (id mesh) (name mesh)
         {| ud_wordData := Some wordData; ud_book := None |}
         (visible mesh) (position mesh) (children mesh)).

(** [positionOnSphere(mesh, index, total)]: [setFromSphericalCoords(800,
    phi, theta)] with both angles computed from [index] and [total]. *)
Definition positionOnSphere (mesh : Object3D) (index total : nat) : Object3D :=
  set_position mesh (SphericalCoords 800 index total).

Definition createWordCloud : M unit :=
  groupId <- fresh ;;
  modify (set_wordGroup (Some groupId)) ;;
  wds <- gets wordsData ;;
  group <- forEachIdx
             (fun group wordData index =>
                wordMesh <- createWordMesh wordData ;;
                ret (add group (positionOnSphere wordMesh index (length wds))))
             wds 0 (newObject groupId) ;;
  modify (fun s => set_scene (add (scene s) group) s).

(** [createTimeline()]: the two sliders exist from here on. *)
Definition createTimeline : M unit := modify (set_gui true).

(** [loadData()]: fetch, index, build the cloud and the sliders. An
    exception anywhere inside goes to [console.error]. The audio and the
    background image that follow do not touch the state kept here. *)
Definition loadData (remote : Remote) : M unit :=
  tryCatch
    (let (urls, fetched) := fetchBooks remote in
     modify (fun s => set_network (network s ++ urls) s) ;;
     allBooks <- liftR fetched ;;
     wds <- liftR (indexBooks allBooks) ;;
     modify (set_wordsData wds) ;;
     createWordCloud ;;
     createTimeline)
    (fun error => modify (fun s => set_console (console s ++ [error]) s)).

(** ** Selecting a word *)

(** [createPlanetMesh(book)] *)
Definition createPlanetMesh (book : Book) : M Object3D :=
  planetId <- fresh ;;
  ret (mkObject3D planetId "" {| ud_wordData := None; ud_book := Some book |}
         true Origin []).

(** [positionPlanet(planet, index, total, centerPosition)]: on a circle
    of radius 150 around the centre. *)
Definition positionPlanet (planet : Object3D) (index total : nat)
    (centerPosition : Position) : Object3D :=
  set_position planet (Orbit centerPosition 150 index total).

(** [showPlanetaryPanel(wordData, position)]. The first argument may be
    [undefined] ([None]), as JavaScript allows; reading [wordData.books]
    then throws, after the previous group was removed and the new group
    object was constructed. *)
Definition showPlanetaryPanel (wordData : option WordData)
    (position : Position) : M unit :=
  sc <- gets scene ;;
  match getObjectByName PLANET_GROUP sc with
  | Some existingPlanets =>
      modify (fun s => set_scene (remove (scene s) existingPlanets) s)
  | None => ret tt
  end ;;
  groupId <- fresh ;;
  let planetGroup :=
    mkObject3D groupId PLANET_GROUP emptyUserData true Origin [] in
  match wordData with
  | None => throw (TypeError "wordData is undefined")
  | Some wordData =>
      tl <- gets timelineData ;;
      let books := panelBooks tl wordData in
      planetGroup <- forEachIdx
                       (fun planetGroup book index =>
                          planet <- createPlanetMesh book ;;
                          ret (add planetGroup
                                 (positionPlanet planet index (length books)
                                    position)))
                       books 0 planetGroup ;;
      modify (fun s => set_scene (add (scene s) planetGroup) s)
  end.

(** [onClick(event)]. The ray cast is an input: [hit] is the index, in
    [wordGroup.children], of the word mesh whose interaction sphere is the
    first intersection, or [None] when nothing is intersected. Before
    [wordGroup] is set, the list handed to the ray caster is [undefined]
    and the handler throws. *)
Definition onClick (hit : option nat) : M unit :=
  wg <- gets wordGroup ;;
  match wg with
  | None => throw (TypeError "objects is undefined")
  | Some groupId =>
      sc <- gets scene ;;
      match hit, getObjectById groupId sc with
      | Some i, Some group =>
          match nth_error (children group) i with
          | Some mesh =>
              match ud_wordData (userData mesh) with
              | Some wordData =>
                  showPlanetaryPanel (Some wordData) (position mesh)
              | None => ret tt
              end
          | None => ret tt
          end
      | _, _ => ret tt
      end
  end.

(** ** The timeline *)

(** The first loop of [updateTimeline] over [wordGroup.children]: each
    mesh gets [visible] from its word's books; a mesh without [wordData]
    stops the loop with a TypeError, the meshes before it are updated. *)
Fixpoint updateVisibility (tl : TimelineData) (meshes : list Object3D)
  : list Object3D * result unit :=
  match meshes with
  | [] => ([], Ok tt)
  | mesh :: rest =>
      match ud_wordData (userData mesh) with
      | None =>
          (mesh :: rest, Throw (TypeError "mesh.userData.wordData is undefined"))
      | Some wordData =>
          let (rest', r) := updateVisibility tl rest in
          (set_visible mesh (wordVisible tl wordData) :: rest', r)
      end
  end.

Definition updateTimeline : M unit :=
  tl <- gets timelineData ;;
  (if (startYear tl >? endYear tl)%Z
   then modify (set_timelineData
                  {| startYear := endYear tl; endYear := startYear tl |})
   else ret tt) ;;
  wg <- gets wordGroup ;;
  match wg with
  | None => throw (TypeError "wordGroup is undefined")
  | Some groupId =>
      tl <- gets timelineData ;;
      sc <- gets scene ;;
      let meshes := match getObjectById groupId sc with
                    | Some group => children group
                    | None => []
                    end in
      let (meshes', looped) := updateVisibility tl meshes in
      modify (fun s => set_scene
                (modifyById groupId (fun g => set_children g meshes') (scene s)) s) ;;
      liftR looped ;;
      sc <- gets scene ;;
      match getObjectByName PLANET_GROUP sc with
      | Some planetGroup =>
          match nth_error (children planetGroup) 0 with
          | Some wordMesh =>
              showPlanetaryPanel (ud_wordData (userData wordMesh))
                                 (position wordMesh)
          | None => throw (TypeError "wordMesh is undefined")
          end
      | None => ret tt
      end
  end.

(** The [onChange] of a slider: the controller assigns the new value to
    its property of [timelineData] and calls [updateTimeline]. *)
Definition onChangeStartYear (v : Z) : M unit :=
  modify (fun s => set_timelineData
            {| startYear := v; endYear := endYear (timelineData s) |} s) ;;
  updateTimeline.

Definition onChangeEndYear (v : Z) : M unit :=
  modify (fun s => set_timelineData
            {| startYear := startYear (timelineData s); endYear := v |} s) ;;
  updateTimeline.

(** ** Events and reachable states *)

(** The page as the top of the script leaves it: the scene with its two
    lights, no words, the full year range. *)
Definition initialApp : App :=
  {| scene := mkObject3D 0 "" emptyUserData true Origin
                [newObject 1; newObject 2];
     wordsData := [];
     wordGroup := None;
     timelineData := {| startYear := 1800; endYear := 2023 |};
     gui := false;
     nextId := 3;
     network := [];
     console := [] |}.

Inductive Event :=
| Click (hit : option nat)
| StartYearChanged (v : Z)
| EndYearChanged (v : Z).

Definition handle (e : Event) : M unit :=
  match e with
  | Click hit => onClick hit
  | StartYearChanged v => onChangeStartYear v
  | EndYearChanged v => onChangeEndYear v
  end.

(** A slider event needs the sliders, and a slider gives a year of its
    range. *)
Definition enabled (e : Event) (s : App) : Prop :=
  match e with
  | Click _ => True
  | StartYearChanged v | EndYearChanged v =>
      gui s = true /\ (1800 <= v <= 2023)%Z
  end.

(** An exception that leaves a handler is reported by the browser; the
    page goes on from the state the handler left. *)
Definition dispatch (e : Event) (s : App) : App := exec (handle e) s.

Inductive reachable : App -> Prop :=
| reachable_init : reachable initialApp
| reachable_load (remote : Remote) :
    reachable (exec (loadData remote) initialApp)
| reachable_event (s : App) (e : Event) :
    reachable s -> enabled e s -> reachable (dispatch e s).

(** ** Notions used to state the properties *)

(** The words one subject contributes, in order: the pieces between
    spaces, normalised, without the empty ones. *)
Definition tokens (subject : jsstring) : list jsstring :=
  filter truthyStr (map normalize (split_space subject)).

(** [pieces.join(sep)] *)
Fixpoint join (sep : jsstring) (pieces : list jsstring) : jsstring :=
  match pieces with
  | [] => []
  | [p] => p
  | p :: rest => p ++ sep ++ join sep rest
  end.

(** Words with the book they come from. *)
Definition tagged (book : Book) (ts : list jsstring) : list (jsstring * Book) :=
  map (fun t => (t, book)) ts.

(** The words of a book, and all word occurrences of a list of books,
    each with the book it comes from, in the order the three nested
    loops visit them. *)
Definition bookTokens (book : Book) : list jsstring :=
  match subjects book with
  | Some subjs => flat_map tokens subjs
  | None => []
  end.

Definition occurrences (allBooks : list Book) : list (jsstring * Book) :=
  flat_map (fun b => tagged b (bookTokens b)) allBooks.

(** The books behind the occurrences of [word], one per occurrence. *)
Definition contributors (word : jsstring) (occ : list (jsstring * Book))
  : list Book :=
  map snd (filter (fun tb => str_eqb word (fst tb)) occ).

(** The entry the map is expected to hold for [word] after the books
    behind [occ] were indexed. *)
Definition expectedEntry (word : jsstring) (occ : list (jsstring * Book))
  : option MapEntry :=
  match contributors word occ with
  | [] => None
  | bs => Some {| count := length bs; books := bs |}
  end.

(** The entry a word has before an occurrence is counted: the one in
    the map, or the new one with count 0 and no books. *)
Definition entryOr0 (o : option MapEntry) : MapEntry :=
  match o with Some e => e | None => {| count := 0; books := [] |} end.

(** The map holds, for every word, what the occurrences [occ] call for. *)
Definition represents (m : WordMap) (occ : list (jsstring * Book)) : Prop :=
  forall w, Map_get w m = expectedEntry w occ.

(** In every entry the count is the number of books listed. *)
Definition consistent (m : WordMap) : Prop :=
  Forall (fun kv => count (snd kv) = length (books (snd kv))) m.

(** The URLs the loop is expected to request when it has made [k]
    requests, may still fetch [budget] pages and holds [cursor] as its
    next page. *)
Fixpoint requestsWithin (remote : Remote) (budget k : nat)
    (cursor : option jsstring) : list jsstring :=
  match budget with
  | O => []
  | S budget' =>
      match truthyUrl cursor with
      | None => []
      | Some url =>
          url :: match remote k url with
                 | Some data =>
                     requestsWithin remote budget' (S k) (next data)
                 | None => []
                 end
      end
  end.

(** Two books with the same [authors[0]]. *)
Definition sameFirstAuthor (b1 b2 : Book) : Prop :=
  firstAuthor b1 = firstAuthor b2.

(** A statement that leaves [timelineData] as it finds it, whether it
    returns or throws. *)
Definition keepsTimeline {A} (m : M A) : Prop :=
  forall s, timelineData (exec m s) = timelineData s.

Definition ordered (tl : TimelineData) : Prop :=
  (startYear tl <= endYear tl)%Z.

(** The range after the first statement of [updateTimeline]. *)
Definition swapped (tl : TimelineData) : TimelineData :=
  if (startYear tl >? endYear tl)%Z
  then {| startYear := endYear tl; endYear := startYear tl |}
  else tl.

(** ** The scene, as the properties speak of it *)

(** All objects of a graph, the root first, and their identities. *)
Fixpoint objects (o : Object3D) : list Object3D :=
  match o with
  | mkObject3D _ _ _ _ _ cs => o :: flat_map objects cs
  end.

Fixpoint objectIds (o : Object3D) : list nat :=
  match o with
  | mkObject3D i _ _ _ _ cs => i :: flat_map objectIds cs
  end.

Definition isNamed (nm : string) (o : Object3D) : bool := String.eqb (name o) nm.

(** The selection groups in the scene. *)
Definition planetGroups (s : App) : list Object3D :=
  filter (isNamed PLANET_GROUP) (objects (scene s)).

(** The planets in the scene: the objects that carry a book. *)
Definition isPlanet (o : Object3D) : bool :=
  match ud_book (userData o) with Some _ => true | None => false end.

Definition planets (s : App) : list Object3D :=
  filter isPlanet (objects (scene s)).

(** The planets that the loop of [showPlanetaryPanel] makes for [bks],
    the first with identity [firstId] and index [index]. *)
Fixpoint planetsFrom (firstId index total : nat) (center : Position)
    (bks : list Book) : list Object3D :=
  match bks with
  | [] => []
  | book :: rest =>
      mkObject3D firstId "" {| ud_wordData := None; ud_book := Some book |}
                 true (Orbit center 150 index total) []
      :: planetsFrom (S firstId) (S index) total center rest
  end.

(** The word meshes that the loop of [createWordCloud] makes; a mesh and
    its sphere take two identities. *)
Fixpoint wordMeshesFrom (firstId index total : nat) (wds : list WordData)
  : list Object3D :=
  match wds with
  | [] => []
  | wd :: rest =>
      mkObject3D firstId "" {| ud_wordData := Some wd; ud_book := None |}
                 true (SphericalCoords 800 index total)
                 [mkObject3D (S firstId) INTERACTION_SPHERE emptyUserData
                             true Origin []]
      :: wordMeshesFrom (S (S firstId)) (S index) total rest
  end.

(** The scene after the first statement of [showPlanetaryPanel]. *)
Definition sceneWithoutPanel (sc : Object3D) : Object3D :=
  match getObjectByName PLANET_GROUP sc with
  | Some existingPlanets => remove sc existingPlanets
  | None => sc
  end.

(** The group that [showPlanetaryPanel] adds for [wd]. *)
Definition panelGroup (groupId : nat) (tl : TimelineData) (wd : WordData)
    (center : Position) : Object3D :=
  mkObject3D groupId PLANET_GROUP emptyUserData true Origin
    (planetsFrom (S groupId) 0 (length (panelBooks tl wd)) center
       (panelBooks tl wd)).

(** An object with no selection group and no planet in it. *)
Definition plain (o : Object3D) : Prop :=
  Forall (fun x => name x <> PLANET_GROUP /\ ud_book (userData x) = None)
         (objects o).

(** What the children of a selection group look like. *)
Definition planetLike (p : Object3D) : Prop :=
  name p = ""%string /\ children p = [] /\ ud_wordData (userData p) = None.

Definition isPanel (g : Object3D) : Prop :=
  name g = PLANET_GROUP /\ ud_book (userData g) = None
  /\ Forall planetLike (children g).

(** The shape of the scene in every state the page reaches: plain
    children (the lights and the word group, which [wordGroup] refers
    to), then at most one selection group; identities are distinct and
    below the next one to be given out. *)
Definition Inv (sc : Object3D) (wg : option nat) (n : nat) : Prop :=
  (name sc <> PLANET_GROUP /\ ud_book (userData sc) = None)
  /\ (exists base panel,
         children sc = base ++ panel
         /\ Forall plain base
         /\ (panel = [] \/ exists g, panel = [g] /\ isPanel g)
         /\ forall gid, wg = Some gid -> In gid (map id base))
  /\ NoDup (objectIds sc)
  /\ Forall (fun i => i < n) (objectIds sc).

Definition sceneInv (s : App) : Prop :=
  Inv (scene s) (wordGroup s) (nextId s).

(** ** The specification's wording, for comparison *)

(** Effective year as the specification words it: [death_year] if
    present, else [birth_year] if present, else 1900. *)
Definition specEffectiveYear (book : Book) : Z :=
  match deathYearOf (firstAuthor book) with
  | Some d => d
  | None => match birthYearOf (firstAuthor book) with
            | Some b => b
            | None => 1900%Z
            end
  end.

Definition specInRange (tl : TimelineData) (book : Book) : bool :=
  (startYear tl <=? specEffectiveYear book)%Z
  && (specEffectiveYear book <=? endYear tl)%Z.

(** White space as JavaScript's [\s] has it. *)
Definition isWhitespace (c : codeUnit) : bool :=
  existsb (N.eqb c)
    [9; 10; 11; 12; 13; 32; 160; 5760; 8192; 8193; 8194; 8195; 8196; 8197;
     8198; 8199; 8200; 8201; 8202; 8232; 8233; 8239; 8287; 12288; 65279]%N.

(** Tokenization as the specification words it: split on white space,
    normalise each piece, drop the empty ones. *)
Definition specTokens (subject : jsstring) : list jsstring :=
  filter truthyStr (map normalize (splitOn isWhitespace subject)).

(** ** Sample data *)

(** Records as the catalogue sends them: a book with one author and two
    subjects, one without authors, one with an empty subjects list and
    one without the [subjects] field. *)
Definition sampleAuthor (death birth : option Z) : Author :=
  {| a_name := lit "A. Writer"; birth_year := birth; death_year := death |}.

Definition sampleBook (t : string) (auths : list Author)
    (subjs : option (list jsstring)) : Book :=
  {| title := lit t; authors := auths; subjects := subjs;
     languages := [lit "en"]; download_count := 10 |}.

Definition bookDickens : Book :=
  sampleBook "Hard Times"
    [sampleAuthor (Some 1870%Z) (Some 1812%Z)]
    (Some [lit "Science fiction -- History"; lit "Art  art"]).

Definition bookAnonymous : Book :=
  sampleBook "Beowulf" [] (Some [lit "History"]).

Definition bookNoSubjectList : Book :=
  sampleBook "Untagged" [sampleAuthor (Some 1950%Z) None] (Some []).

Definition bookNoSubjectsField : Book :=
  sampleBook "Malformed" [sampleAuthor (Some 1950%Z) None] None.

(** A record whose first author has 0 as year of death. *)
Definition bookYearZero : Book :=
  sampleBook "Annals"
    [sampleAuthor (Some 0%Z) (Some 1850%Z)]
    (Some [lit "History"]).

(** A record with two authors; the second has other years. *)
Definition bookTwoAuthors : Book :=
  sampleBook "Letters"
    [sampleAuthor (Some 1870%Z) (Some 1812%Z);
     sampleAuthor (Some 1990%Z) (Some 1920%Z)]
    (Some [lit "Letters"]).

(** A subject with a tab (code unit 9) between two words. *)
Definition subjectWithTab : jsstring := lit "Fairy" ++ [9%N] ++ lit "tales".

Definition bookTabbed : Book :=
  sampleBook "Household Tales" [] (Some [subjectWithTab]).

Definition fullRange : TimelineData := {| startYear := 1800; endYear := 2023 |}.

(** Catalogues: one of two pages, and one whose only page holds a record
    without a [subjects] field. *)
Definition PAGE2_URL : jsstring := lit "https://gutendex.com/books/?page=2".

Definition remoteTwoPages : Remote :=
  fun _ url =>
    if str_eqb url CATALOG_URL
    then Some {| results := [bookDickens]; next := Some PAGE2_URL |}
    else if str_eqb url PAGE2_URL
    then Some {| results := [bookAnonymous]; next := None |}
    else None.

Definition remoteMalformed : Remote :=
  fun _ url =>
    if str_eqb url CATALOG_URL
    then Some {| results := [bookAnonymous; bookNoSubjectsField];
                 next := None |}
    else None.

(** Sample states: the page after loading the two-page catalogue (its
    words are science, fiction, history, art, in this order); the same
    after a click on "history"; and, with the range narrowed to
    2000..2023, after a click on "science", whose only book has the year
    1870. *)
Definition pageLoaded : App := exec (loadData remoteTwoPages) initialApp.

Definition pageSelected : App := dispatch (Click (Some 2)) pageLoaded.

Definition pageEmptySelection : App :=
  dispatch (Click (Some 0)) (dispatch (StartYearChanged 2000) pageLoaded).

(** ** The tooltip ([showTooltip], [hideTooltip], [onMouseMove])

    The tooltip element: its position, whether it is displayed, and what
    its markup shows. The markup is kept as the values put into the
    template, not as the HTML text. *)

Record TooltipContent := {
  tt_title : jsstring;
  tt_authors : jsstring;
  tt_year : TooltipYear;
  tt_subjects : jsstring;
  tt_languages : jsstring;
  tt_downloads : Z
}.

Record Tooltip := {
  tt_left : Z;
  tt_top : Z;
  tt_display : bool;
  tt_content : option TooltipContent
}.

Definition UNKNOWN : jsstring := lit "Unknown".
Definition COMMA_SPACE : jsstring := lit ", ".

(** [Array.isArray(book.authors) && book.authors.length > 0
      ? book.authors.map((a) => a.name).join(', ') : 'Unknown'] *)
Definition authorsText (book : Book) : jsstring :=
  match authors book with
  | [] => UNKNOWN
  | _ :: _ => join COMMA_SPACE (map a_name (authors book))
  end.

(** [showTooltip(x, y, book)]: position and [display] are assigned
    first; the template then reads [book.subjects.join], which throws on
    a record without subjects and leaves the old markup. *)
Definition showTooltip (x y : Z) (book : Book) (t : Tooltip)
  : result unit * Tooltip :=
  match subjects book with
  | None =>
      (Throw (TypeError "book.subjects is undefined"),
       {| tt_left := x; tt_top := y; tt_display := true;
          tt_content := tt_content t |})
  | Some subjs =>
      (Ok tt,
       {| tt_left := x; tt_top := y; tt_display := true;
          tt_content :=
            Some {| tt_title := title book;
                    tt_authors := authorsText book;
                    tt_year := tooltipYear book;
                    tt_subjects := join COMMA_SPACE subjs;
                    tt_languages := join COMMA_SPACE (languages book);
                    tt_downloads := download_count book |} |})
  end.

(** [hideTooltip()] *)
Definition hideTooltip (t : Tooltip) : Tooltip :=
  {| tt_left := tt_left t; tt_top := tt_top t; tt_display := false;
     tt_content := tt_content t |}.

(** [onMouseMove(event)] at pointer position [x], [y]. As for the click,
    the ray cast is an input: [hit] is the index, in
    [planetGroup.children], of the first planet intersected. *)
Definition onMouseMove (x y : Z) (hit : option nat) (s : App) (t : Tooltip)
  : result unit * Tooltip :=
  match getObjectByName PLANET_GROUP (scene s) with
  | None => (Ok tt, t)
  | Some planetGroup =>
      match hit with
      | Some i =>
          match nth_error (children planetGroup) i with
          | Some mesh =>
              match ud_book (userData mesh) with
              | Some book => showTooltip x y book t
              | None => (Ok tt, hideTooltip t)
              end
          | None => (Ok tt, hideTooltip t)
          end
      | None => (Ok tt, hideTooltip t)
      end
  end.

(** ** Further notions for the index *)

(** The distinct words of a list in the order of their first occurrence. *)
Fixpoint firstOccurrences (ws : list jsstring) : list jsstring :=
  match ws with
  | [] => []
  | w :: rest =>
      w :: filter (fun x => negb (str_eqb x w)) (firstOccurrences rest)
  end.

(** The sum of the counts of a map. *)
Definition totalCount (m : WordMap) : nat :=
  list_sum (map (fun kv => count (snd kv)) m).

(** The map is the index of the occurrences [occ]: it holds what they
    call for, its keys are their words in order of first occurrence, and
    its counts add up to their number. *)
Definition indexes (m : WordMap) (occ : list (jsstring * Book)) : Prop :=
  represents m occ
  /\ map fst m = firstOccurrences (map fst occ)
  /\ totalCount m = length occ.

(** One range inside another. *)
Definition narrower (tl' tl : TimelineData) : Prop :=
  (startYear tl <= startYear tl')%Z /\ (endYear tl' <= endYear tl)%Z.

(** [l1] is [l2] with some elements left out. *)
Inductive sublist {A} : list A -> list A -> Prop :=
| sublist_nil : sublist [] []
| sublist_keep x l1 l2 : sublist l1 l2 -> sublist (x :: l1) (x :: l2)
| sublist_drop x l1 l2 : sublist l1 l2 -> sublist l1 (x :: l2).

(** ** Further notions for the fetch loop and the scene *)

(** What the loop is expected to return when it has made [k] requests,
    may still fetch [budget] pages, holds [cursor] as its next page and
    [acc] as the books so far. *)
Fixpoint resultWithin (remote : Remote) (budget k : nat)
    (cursor : option jsstring) (acc : list Book) : result (list Book) :=
  match budget with
  | O => Ok acc
  | S budget' =>
      match truthyUrl cursor with
      | None => Ok acc
      | Some url =>
          match remote k url with
          | Some data =>
              resultWithin remote budget' (S k) (next data)
                           (acc ++ results data)
          | None => Throw (FetchError url)
          end
      end
  end.

(** The answers of the catalogue to the requests [urls], made in this
    order as the requests number [k], [k + 1], ... *)
Fixpoint responsesTo (remote : Remote) (k : nat) (urls : list jsstring)
  : list (option Page) :=
  match urls with
  | [] => []
  | u :: rest => remote k u :: responsesTo remote (S k) rest
  end.

(** The word meshes of the page: the children of the object that
    [wordGroup] refers to. *)
Definition wordMeshes (s : App) : list Object3D :=
  match wordGroup s with
  | Some gid =>
      match getObjectById gid (scene s) with
      | Some group => children group
      | None => []
      end
  | None => []
  end.

(** The slider range. *)
Definition inSliderRange (v : Z) : Prop := (1800 <= v <= 2023)%Z.

(** The word meshes stand for the words of the index, one by one: each
    carries its word and the position that [positionOnSphere] gave it. *)
Definition cloudInv (s : App) : Prop :=
  map (fun m => ud_wordData (userData m)) (wordMeshes s)
  = map Some (wordsData s)
  /\ map position (wordMeshes s)
     = map (fun i => SphericalCoords 800 i (length (wordsData s)))
           (seq 0 (length (wordsData s)))
  /\ (gui s = true -> wordGroup s <> None).

(** The tooltip before any pointer move: hidden and empty. *)
Definition tooltipAtStart : Tooltip :=
  {| tt_left := 0; tt_top := 0; tt_display := false; tt_content := None |}.

(* ===================================================================== *)
(** * Part II: properties *)
(* ===================================================================== *)

Unset Implicit Arguments.

(** ** Strings and the word map *)

Lemma str_eqb_eq (a b : jsstring) : str_eqb a b = true <-> a = b.
Proof.
  revert b. induction a as [|x a IH]; intros [|y b]; simpl; split;
    try congruence; try reflexivity.
  - intros H. apply andb_true_iff in H as [Hx Hab].
    apply N.eqb_eq in Hx. apply IH in Hab. congruence.
  - intros H. injection H as -> ->.
    rewrite N.eqb_refl. simpl. now apply IH.
Qed.

Lemma str_eqb_refl (a : jsstring) : str_eqb a a = true.
Proof. now apply str_eqb_eq. Qed.

Lemma str_eqb_neq (a b : jsstring) : str_eqb a b = false <-> a <> b.
Proof.
  rewrite <- str_eqb_eq. destruct (str_eqb a b); split; congruence.
Qed.

Lemma truthyStr_true (w : jsstring) : truthyStr w = true <-> w <> [].
Proof. destruct w; simpl; split; congruence. Qed.

Lemma splitOn_cons (isSep : codeUnit -> bool) (s : jsstring) :
  exists p ps, splitOn isSep s = p :: ps.
Proof.
  induction s as [|c s (p & ps & IH)]; simpl; eauto.
  destruct (isSep c); rewrite ?IH; eauto.
Qed.

Lemma join_cons_cons (sep p q : jsstring) (rest : list jsstring) :
  join sep (p :: q :: rest) = p ++ sep ++ join sep (q :: rest).
Proof. reflexivity. Qed.

Lemma join_split_space (s : jsstring) : join [SPACE] (split_space s) = s.
Proof.
  unfold split_space. induction s as [|c s IH]; [reflexivity|].
  simpl splitOn. destruct (splitOn_cons isSpace s) as (p & ps & E).
  rewrite E in *. destruct (isSpace c) eqn:Hc.
  - apply N.eqb_eq in Hc. subst c.
    rewrite join_cons_cons, IH. reflexivity.
  - destruct ps as [|q ps].
    + simpl in *. now rewrite IH.
    + change (join [SPACE] ((c :: p) :: q :: ps))
        with (c :: join [SPACE] (p :: q :: ps)).
      now rewrite IH.
Qed.

Lemma split_space_pieces (s : jsstring) :
  Forall (fun p => ~ In SPACE p) (split_space s).
Proof.
  unfold split_space. induction s as [|c s IH]; simpl.
  - constructor; [intros []|constructor].
  - destruct (isSpace c) eqn:Hc.
    + constructor; [intros []|exact IH].
    + assert (c <> SPACE) as Hne
        by (intros ->; unfold isSpace in Hc; now rewrite N.eqb_refl in Hc).
      destruct (splitOn isSpace s) as [|p ps].
      * constructor; [|constructor]. simpl. intros [H|[]]. congruence.
      * inversion IH as [|? ? Hp Hps]; subst. constructor; [|exact Hps].
        simpl. intros [H|H]; [congruence|contradiction].
Qed.

Lemma normalize_lower (w : jsstring) :
  Forall (fun c => isLower c = true) (normalize w).
Proof.
  unfold normalize, toLowerCase, replaceNonAlpha.
  induction w as [|c w IH]; simpl; [constructor|].
  destruct (isAlpha c) eqn:Hc; [|exact IH].
  simpl. constructor; [|exact IH].
  unfold lowerUnit. destruct (isUpper c) eqn:Hu.
  - unfold isUpper in Hu. apply andb_true_iff in Hu as [H1 H2].
    apply N.leb_le in H1, H2. unfold isLower.
    apply andb_true_iff. split; apply N.leb_le; lia.
  - unfold isAlpha in Hc. rewrite Hu, orb_false_r in Hc. exact Hc.
Qed.

Lemma Map_get_set_same (k : jsstring) (v : MapEntry) (m : WordMap) :
  Map_get k (Map_set k v m) = Some v.
Proof.
  induction m as [|[k' v'] m IH]; simpl.
  - now rewrite str_eqb_refl.
  - destruct (str_eqb k k') eqn:E; simpl; rewrite E; [reflexivity|exact IH].
Qed.

Lemma Map_get_set_other (k k' : jsstring) (v : MapEntry) (m : WordMap) :
  k <> k' -> Map_get k' (Map_set k v m) = Map_get k' m.
Proof.
  intros Hne. induction m as [|[k0 v0] m IH]; simpl.
  - assert (str_eqb k' k = false) as -> by (apply str_eqb_neq; congruence).
    reflexivity.
  - destruct (str_eqb k k0) eqn:E; simpl.
    + apply str_eqb_eq in E. subst k0.
      assert (str_eqb k' k = false) as -> by (apply str_eqb_neq; congruence).
      reflexivity.
    + now rewrite IH.
Qed.

Lemma Map_set_Forall (P : jsstring * MapEntry -> Prop) (k : jsstring)
    (v : MapEntry) (m : WordMap) :
  (forall k', P (k', v)) -> Forall P m -> Forall P (Map_set k v m).
Proof.
  intros Hv. induction 1 as [|[k0 v0] m H0 Hm IH]; simpl.
  - constructor; [apply Hv|constructor].
  - destruct (str_eqb k k0); constructor; auto.
Qed.

Lemma Map_get_Forall (P : jsstring * MapEntry -> Prop) (k : jsstring)
    (e : MapEntry) (m : WordMap) :
  Forall P m -> Map_get k m = Some e -> exists k', P (k', e).
Proof.
  induction 1 as [|[k0 v0] m H0 Hm IH]; simpl; [discriminate|].
  destruct (str_eqb k k0); [|exact IH].
  intros [= <-]. eauto.
Qed.

(** ** The indexing pass *)

Lemma forEachR_app {A Acc} (f : Acc -> A -> result Acc) (xs ys : list A)
    (s : Acc) :
  forEachR f (xs ++ ys) s = rbind (forEachR f xs s) (forEachR f ys).
Proof.
  revert s. induction xs as [|x xs IH]; intros s; simpl; [reflexivity|].
  destruct (f s x); simpl; [apply IH|reflexivity].
Qed.

Lemma indexWord_skip (book : Book) (m : WordMap) (piece : jsstring) :
  normalize piece = [] -> indexWord book m piece = Ok m.
Proof. unfold indexWord. now intros ->. Qed.

Lemma indexWord_spec (book : Book) (m : WordMap) (piece : jsstring) :
  normalize piece <> [] ->
  exists m',
    indexWord book m piece = Ok m'
    /\ Map_get (normalize piece) m'
       = Some {| count := count (entryOr0 (Map_get (normalize piece) m)) + 1;
                 books := books (entryOr0 (Map_get (normalize piece) m))
                          ++ [book] |}
    /\ forall w, w <> normalize piece -> Map_get w m' = Map_get w m.
Proof.
  intros Hne. unfold indexWord.
  set (w := normalize piece) in *.
  apply truthyStr_true in Hne as Ht. rewrite Ht.
  unfold Map_has, getEntry.
  destruct (Map_get w m) as [e|] eqn:Hget; simpl.
  - rewrite Hget. simpl. rewrite Map_get_set_same. simpl.
    eexists. split; [reflexivity|]. split.
    + now rewrite Map_get_set_same.
    + intros w' Hw'. now rewrite !Map_get_set_other by congruence.
  - rewrite Map_get_set_same. simpl. rewrite Map_get_set_same. simpl.
    eexists. split; [reflexivity|]. split.
    + now rewrite Map_get_set_same.
    + intros w' Hw'. now rewrite !Map_get_set_other by congruence.
Qed.

Lemma Map_set_set (k : jsstring) (v v' : MapEntry) (m : WordMap) :
  Map_set k v' (Map_set k v m) = Map_set k v' m.
Proof.
  induction m as [|[k0 v0] m IH]; simpl.
  - now rewrite str_eqb_refl.
  - destruct (str_eqb k k0) eqn:E; simpl; rewrite E; [reflexivity|].
    now rewrite IH.
Qed.

Lemma forEachR_invariant {A Acc} (P : Acc -> Prop)
    (f : Acc -> A -> result Acc) (xs : list A) :
  (forall s x s', P s -> f s x = Ok s' -> P s') ->
  forall s s', P s -> forEachR f xs s = Ok s' -> P s'.
Proof.
  intros Hf. induction xs as [|x xs IH]; simpl; intros s s' Hs.
  - now intros [= <-].
  - destruct (f s x) as [s1|e] eqn:E; simpl; [|discriminate].
    apply IH. eapply Hf; eassumption.
Qed.

Lemma indexWord_consistent (book : Book) (m m' : WordMap) (piece : jsstring) :
  consistent m -> indexWord book m piece = Ok m' -> consistent m'.
Proof.
  unfold indexWord, consistent. intros Hm.
  set (w := normalize piece). destruct (truthyStr w); [|now intros [= <-]].
  set (m1 := if negb (Map_has w m) then _ else m).
  assert (Forall (fun kv => count (snd kv) = length (books (snd kv))) m1) as Hm1.
  { subst m1. destruct (negb (Map_has w m)); [|exact Hm].
    apply Map_set_Forall; [reflexivity|exact Hm]. }
  unfold getEntry. destruct (Map_get w m1) as [e|] eqn:Hget; simpl; [|discriminate].
  rewrite Map_get_set_same. simpl. intros [= <-].
  rewrite Map_set_set. apply Map_set_Forall; [|exact Hm1].
  intros k0. simpl. rewrite length_app. simpl.
  destruct (Map_get_Forall _ _ _ _ Hm1 Hget) as [k' Hk']. simpl in Hk'. lia.
Qed.

Lemma indexBook_consistent (m m' : WordMap) (book : Book) :
  consistent m -> indexBook m book = Ok m' -> consistent m'.
Proof.
  unfold indexBook. destruct (subjects book) as [subjs|]; [|discriminate].
  apply forEachR_invariant. intros s subject s'. unfold indexSubject.
  apply forEachR_invariant. intros ? ? ?. apply indexWord_consistent.
Qed.

(** C9. In the word list that the indexing pass produces, the frequency
    of every word equals the length of its list of books. *)
Theorem frequency_is_number_of_books (allBooks : list Book)
    (wds : list WordData) :
  indexBooks allBooks = Ok wds ->
  Forall (fun wd => frequency wd = length (wd_books wd)) wds.
Proof.
  unfold indexBooks, buildWordMap.
  destruct (forEachR indexBook allBooks []) as [m|e] eqn:E; simpl; [|discriminate].
  intros [= <-].
  assert (consistent m) as Hm.
  { eapply forEachR_invariant; [| |exact E].
    - intros s x s'. apply indexBook_consistent.
    - constructor. }
  unfold toWordsData, consistent in *. apply Forall_map.
  eapply Forall_impl; [|exact Hm]. intros [k e] H. exact H.
Qed.

Lemma frequency_is_number_of_books_witness :
  exists wds,
    indexBooks [bookDickens; bookAnonymous] = Ok wds
    /\ Forall (fun wd => frequency wd = length (wd_books wd)) wds.
Proof.
  eexists. split; [reflexivity|].
  apply (frequency_is_number_of_books [bookDickens; bookAnonymous]).
  reflexivity.
Defined.

(** *** Every occurrence is counted once, in order *)

Lemma contributors_app (w : jsstring) (occ1 occ2 : list (jsstring * Book)) :
  contributors w (occ1 ++ occ2) = contributors w occ1 ++ contributors w occ2.
Proof. unfold contributors. now rewrite filter_app, map_app. Qed.

Lemma expectedEntry_snoc_same (w : jsstring) (b : Book)
    (occ : list (jsstring * Book)) :
  expectedEntry w (occ ++ [(w, b)])
  = Some {| count := count (entryOr0 (expectedEntry w occ)) + 1;
            books := books (entryOr0 (expectedEntry w occ)) ++ [b] |}.
Proof.
  unfold expectedEntry. rewrite contributors_app.
  unfold contributors at 2. simpl. rewrite str_eqb_refl. simpl.
  destruct (contributors w occ) as [|x c]; simpl; [reflexivity|].
  rewrite length_app. reflexivity.
Qed.

Lemma expectedEntry_snoc_other (w t : jsstring) (b : Book)
    (occ : list (jsstring * Book)) :
  w <> t -> expectedEntry w (occ ++ [(t, b)]) = expectedEntry w occ.
Proof.
  intros Hne. unfold expectedEntry. rewrite contributors_app.
  unfold contributors at 2. simpl.
  assert (str_eqb w t = false) as -> by now apply str_eqb_neq.
  simpl. now rewrite app_nil_r.
Qed.

Lemma indexWord_represents (book : Book) (piece : jsstring) (m : WordMap)
    (occ : list (jsstring * Book)) :
  represents m occ ->
  exists m',
    indexWord book m piece = Ok m'
    /\ represents m' (occ ++ tagged book (filter truthyStr [normalize piece])).
Proof.
  intros Hm. simpl. destruct (truthyStr (normalize piece)) eqn:Ht.
  - apply truthyStr_true in Ht.
    destruct (indexWord_spec book m piece Ht) as (m' & Hok & Hsame & Hother).
    exists m'. split; [exact Hok|]. intros w. simpl.
    destruct (str_eqb w (normalize piece)) eqn:E.
    + apply str_eqb_eq in E. subst w.
      rewrite Hsame, expectedEntry_snoc_same, (Hm (normalize piece)).
      reflexivity.
    + apply str_eqb_neq in E.
      rewrite (Hother w E), expectedEntry_snoc_other by exact E. apply Hm.
  - exists m. split.
    + apply indexWord_skip. destruct (normalize piece); [reflexivity|discriminate].
    + simpl. now rewrite app_nil_r.
Qed.

Lemma forEachR_represents {A} (f : WordMap -> A -> result WordMap)
    (g : A -> list (jsstring * Book)) (xs : list A) :
  (forall x m occ, In x xs -> represents m occ ->
     exists m', f m x = Ok m' /\ represents m' (occ ++ g x)) ->
  forall m occ, represents m occ ->
    exists m', forEachR f xs m = Ok m' /\ represents m' (occ ++ flat_map g xs).
Proof.
  induction xs as [|x xs IH]; intros Hf m occ Hm; simpl.
  - exists m. split; [reflexivity|]. now rewrite app_nil_r.
  - destruct (Hf x m occ (or_introl eq_refl) Hm) as (m1 & E1 & H1).
    rewrite E1. simpl.
    destruct (IH (fun y m0 occ0 Hy => Hf y m0 occ0 (or_intror Hy)) m1 _ H1)
      as (m' & E' & H').
    exists m'. split; [exact E'|]. now rewrite app_assoc.
Qed.

Lemma tagged_flat_map {A} (book : Book) (g : A -> list jsstring) (xs : list A) :
  flat_map (fun x => tagged book (g x)) xs = tagged book (flat_map g xs).
Proof.
  unfold tagged. induction xs as [|x xs IH]; simpl; [reflexivity|].
  now rewrite IH, map_app.
Qed.

Lemma tokens_flat_map (pieces : list jsstring) :
  flat_map (fun piece => filter truthyStr [normalize piece]) pieces
  = filter truthyStr (map normalize pieces).
Proof.
  induction pieces as [|p ps IH]; simpl in *; [reflexivity|].
  rewrite IH. now destruct (truthyStr (normalize p)).
Qed.

Lemma indexSubject_represents (book : Book) (subject : jsstring) (m : WordMap)
    (occ : list (jsstring * Book)) :
  represents m occ ->
  exists m',
    indexSubject book m subject = Ok m'
    /\ represents m' (occ ++ tagged book (tokens subject)).
Proof.
  intros Hm. unfold indexSubject, tokens.
  rewrite <- tokens_flat_map, <- tagged_flat_map.
  apply forEachR_represents; [|exact Hm].
  intros piece m0 occ0 _. apply indexWord_represents.
Qed.

Lemma indexBook_represents (book : Book) (m : WordMap)
    (occ : list (jsstring * Book)) :
  subjects book <> None ->
  represents m occ ->
  exists m',
    indexBook m book = Ok m'
    /\ represents m' (occ ++ tagged book (bookTokens book)).
Proof.
  intros Hs Hm. unfold indexBook, bookTokens.
  destruct (subjects book) as [subjs|]; [|congruence].
  rewrite <- tagged_flat_map.
  apply forEachR_represents; [|exact Hm].
  intros subject m0 occ0 _. apply indexSubject_represents.
Qed.

Lemma buildWordMap_represents (allBooks : list Book) :
  Forall (fun b => subjects b <> None) allBooks ->
  exists m, buildWordMap allBooks = Ok m /\ represents m (occurrences allBooks).
Proof.
  intros Hall. unfold buildWordMap, occurrences.
  change (flat_map (fun b => tagged b (bookTokens b)) allBooks)
    with ([] ++ flat_map (fun b => tagged b (bookTokens b)) allBooks).
  apply forEachR_represents; [|intros w; reflexivity].
  intros b m occ Hb. apply indexBook_represents.
  rewrite Forall_forall in Hall. now apply Hall.
Qed.

(** C4, as amended. Tokenization splits a subject at every space
    character (U+0020): the pieces joined with spaces give the subject
    back and hold no space. Each piece is stripped of what is not in
    [a-zA-Z] and lower-cased; a piece that becomes empty changes nothing.
    Every surviving token adds exactly 1 to its word's count and appends
    the book to the word's list, leaving the other words alone; over the
    whole pass each word holds one book per occurrence, in order, so a
    book that contributes a word twice is listed twice. *)
Theorem tokenize_and_count :
  (forall subject,
      join [SPACE] (split_space subject) = subject
      /\ Forall (fun p => ~ In SPACE p) (split_space subject))
  /\ (forall piece,
         normalize piece = map lowerUnit (filter isAlpha piece)
         /\ Forall (fun c => isLower c = true) (normalize piece))
  /\ (forall book m piece,
         normalize piece = [] -> indexWord book m piece = Ok m)
  /\ (forall book m piece,
         normalize piece <> [] ->
         exists m',
           indexWord book m piece = Ok m'
           /\ Map_get (normalize piece) m'
              = Some {| count := count (entryOr0 (Map_get (normalize piece) m)) + 1;
                        books := books (entryOr0 (Map_get (normalize piece) m))
                                 ++ [book] |}
           /\ forall w, w <> normalize piece -> Map_get w m' = Map_get w m)
  /\ (forall allBooks,
         Forall (fun b => subjects b <> None) allBooks ->
         exists m,
           buildWordMap allBooks = Ok m
           /\ forall w, Map_get w m = expectedEntry w (occurrences allBooks)).
Proof.
  repeat split.
  - apply join_split_space.
  - apply split_space_pieces.
  - apply normalize_lower.
  - intros book m piece. apply indexWord_skip.
  - intros book m piece. apply indexWord_spec.
  - intros allBooks. apply buildWordMap_represents.
Qed.

Lemma tokenize_and_count_witness :
  (exists m',
      indexWord bookAnonymous [] (lit "History,") = Ok m'
      /\ Map_get (lit "history") m'
         = Some {| count := 1; books := [bookAnonymous] |})
  /\ (exists m,
         buildWordMap [bookDickens; bookAnonymous] = Ok m
         /\ Map_get (lit "art") m
            = Some {| count := 2; books := [bookDickens; bookDickens] |}
         /\ Map_get (lit "history") m
            = Some {| count := 2; books := [bookDickens; bookAnonymous] |}).
Proof.
  destruct tokenize_and_count as (_ & _ & _ & Hword & Hall).
  split.
  - destruct (Hword bookAnonymous [] (lit "History,")) as (m' & E & G & _).
    + vm_compute. discriminate.
    + exists m'. split; [exact E|exact G].
  - destruct (Hall [bookDickens; bookAnonymous]) as (m & E & G).
    + repeat constructor; discriminate.
    + exists m. split; [exact E|]. split; rewrite G; reflexivity.
Defined.

(** C4, counterexample to the claim as stated. A tab is white space, so
    splitting on white space gives the two words of [subjectWithTab];
    the script splits at spaces only, keeps the tab inside one piece and
    strips it there, so the index holds the single word "fairytales". *)
Lemma tab_does_not_separate_words :
  isWhitespace 9%N = true
  /\ specTokens subjectWithTab = [lit "fairy"; lit "tales"]
  /\ tokens subjectWithTab = [lit "fairytales"]
  /\ tokens subjectWithTab <> specTokens subjectWithTab
  /\ indexBooks [bookTabbed]
     = Ok [{| text := lit "fairytales"; frequency := 1;
              wd_books := [bookTabbed] |}].
Proof.
  repeat split; try reflexivity. vm_compute. discriminate.
Qed.

(** Where a subject holds no white space but spaces, the two ways of
    splitting agree. *)
Lemma splitOn_ext (p q : codeUnit -> bool) (s : jsstring) :
  Forall (fun c => p c = q c) s -> splitOn p s = splitOn q s.
Proof.
  induction 1 as [|c s Hc Hs IH]; simpl; [reflexivity|].
  now rewrite Hc, IH.
Qed.

Lemma tokens_agree_without_other_whitespace (subject : jsstring) :
  Forall (fun c => isWhitespace c = true -> c = SPACE) subject ->
  tokens subject = specTokens subject.
Proof.
  intros H. unfold tokens, specTokens, split_space.
  f_equal. f_equal. apply splitOn_ext.
  eapply Forall_impl; [|exact H]. intros c Hc. simpl in Hc.
  unfold isSpace. destruct (N.eqb_spec c SPACE) as [->|Hne]; [reflexivity|].
  destruct (isWhitespace c); [now specialize (Hc eq_refl)|reflexivity].
Qed.

(** Duplicates are kept: a book whose subjects hold a word twice is
    listed twice under it. *)
Example duplicates_are_kept :
  forall m, buildWordMap [bookDickens] = Ok m ->
    Map_get (lit "art") m = Some {| count := 2; books := [bookDickens; bookDickens] |}.
Proof. intros m [= <-]. reflexivity. Qed.

(** C5, as amended. A book whose subjects list is present and empty adds
    nothing and raises nothing: the map is returned as it was, and the
    word list of any catalogue is the one of the catalogue without that
    book. *)
Theorem empty_subjects_contribute_nothing (book : Book) :
  subjects book = Some [] ->
  (forall m, indexBook m book = Ok m)
  /\ forall before after,
       indexBooks (before ++ book :: after) = indexBooks (before ++ after).
Proof.
  intros Hs.
  assert (forall m, indexBook m book = Ok m) as Hb
    by (intros m; unfold indexBook; now rewrite Hs).
  split; [exact Hb|].
  intros before after. unfold indexBooks, buildWordMap.
  rewrite !forEachR_app.
  destruct (forEachR indexBook before []) as [m|e]; simpl; [|reflexivity].
  now rewrite Hb.
Qed.

Lemma empty_subjects_contribute_nothing_witness :
  indexBook [] bookNoSubjectList = Ok []
  /\ indexBooks ([bookDickens] ++ bookNoSubjectList :: [bookAnonymous])
     = indexBooks ([bookDickens] ++ [bookAnonymous]).
Proof.
  destruct (empty_subjects_contribute_nothing bookNoSubjectList eq_refl)
    as [Hb Hi].
  split; [apply Hb|apply Hi].
Defined.

(** C5, counterexample to the claim as stated. A record without a
    [subjects] field makes [subjects.forEach] throw: the pass ends there,
    no word list is produced for the other books, and [loadData] logs the
    error and leaves [wordsData] empty. *)
Lemma missing_subjects_end_the_pass :
  subjects bookNoSubjectsField = None
  /\ (exists wds, indexBooks [bookAnonymous] = Ok wds /\ wds <> [])
  /\ indexBooks [bookAnonymous; bookNoSubjectsField]
     = Throw (TypeError "subjects is undefined")
  /\ wordsData (exec (loadData remoteMalformed) initialApp) = []
  /\ console (exec (loadData remoteMalformed) initialApp)
     = [TypeError "subjects is undefined"].
Proof.
  split; [reflexivity|]. split.
  - eexists. split; [reflexivity|discriminate].
  - repeat split; reflexivity.
Qed.

(** ** The fetch loop *)

Lemma requestsWithin_falsy (remote : Remote) (budget k : nat)
    (cursor : option jsstring) :
  truthyUrl cursor = None -> requestsWithin remote budget k cursor = [].
Proof. intros H. destruct budget; simpl; [reflexivity|now rewrite H]. Qed.

(** The loop requests what the page budget left to it allows. *)
Lemma fetchLoop_requests (remote : Remote) (allBooks : list Book)
    (nextPage : option jsstring) (pageCount : nat) (requests : list jsstring) :
  fst (fetchLoop remote allBooks nextPage pageCount requests)
  = requests ++ requestsWithin remote (3 - pageCount) pageCount nextPage.
Proof.
  funelim (fetchLoop remote allBooks nextPage pageCount requests); cbn [fst].
  - replace (3 - pageCount) with 0 by lia. cbn [requestsWithin].
    now rewrite app_nil_r.
  - rewrite requestsWithin_falsy by assumption. now rewrite app_nil_r.
  - match goal with IH : fst _ = _ |- _ => rewrite IH end.
    replace (3 - pageCount) with (S (3 - S pageCount)) by lia.
    cbn [requestsWithin].
    repeat match goal with E : _ = Some _ |- _ => rewrite E; clear E end.
    now rewrite <- app_assoc.
  - replace (3 - pageCount) with (S (3 - S pageCount)) by lia.
    cbn [requestsWithin].
    repeat match goal with E : _ = _ :> option _ |- _ => rewrite E; clear E end.
    reflexivity.
Qed.

Lemma requestsWithin_length (remote : Remote) (budget : nat) :
  forall k cursor, length (requestsWithin remote budget k cursor) <= budget.
Proof.
  induction budget as [|b IH]; intros k cursor; simpl; [lia|].
  destruct (truthyUrl cursor) as [url|]; simpl; [|lia].
  destruct (remote k url) as [data|]; simpl; [|lia].
  specialize (IH (S k) (next data)). lia.
Qed.

Lemma requestsWithin_first (remote : Remote) (budget k : nat)
    (cursor : option jsstring) (u : jsstring) :
  nth_error (requestsWithin remote budget k cursor) 0 = Some u ->
  truthyUrl cursor = Some u.
Proof.
  destruct budget; simpl; [discriminate|].
  destruct (truthyUrl cursor); simpl; [congruence|discriminate].
Qed.

(** The pages after the first, seen from the first request. *)
Lemma requestsWithin_step (remote : Remote) (budget k : nat)
    (cursor : option jsstring) (url : jsstring) (i : nat) (u : jsstring) :
  truthyUrl cursor = Some url ->
  nth_error (requestsWithin remote (S budget) k cursor) (S i) = Some u ->
  exists data,
    remote k url = Some data
    /\ nth_error (requestsWithin remote budget (S k) (next data)) i = Some u.
Proof.
  intros Hc. simpl. rewrite Hc. simpl.
  destruct (remote k url) as [data|]; [eauto|].
  destruct i; discriminate.
Qed.

Lemma requestsWithin_chain (remote : Remote) (budget : nat) :
  forall k cursor i u u',
    nth_error (requestsWithin remote budget k cursor) i = Some u ->
    nth_error (requestsWithin remote budget k cursor) (S i) = Some u' ->
    exists page,
      remote (k + i) u = Some page /\ truthyUrl (next page) = Some u'.
Proof.
  induction budget as [|b IH]; intros k cursor i u u' Hi HSi.
  - destruct i; discriminate.
  - destruct (truthyUrl cursor) as [url|] eqn:Hc.
    2: { rewrite requestsWithin_falsy in Hi by exact Hc. destruct i; discriminate. }
    destruct (requestsWithin_step _ _ _ _ _ _ _ Hc HSi) as (data & Hd & Hnext).
    destruct i as [|i].
    + simpl in Hi. rewrite Hc in Hi. simpl in Hi. injection Hi as <-.
      exists data. rewrite Nat.add_0_r. split; [exact Hd|].
      eapply requestsWithin_first; exact Hnext.
    + destruct (requestsWithin_step _ _ _ _ _ _ _ Hc Hi) as (data' & Hd' & Hprev).
      assert (data' = data) as -> by congruence.
      rewrite Nat.add_succ_r. apply (IH (S k) (next data)); assumption.
Qed.

Lemma requestsWithin_stop (remote : Remote) (budget : nat) :
  forall k cursor i u page,
    nth_error (requestsWithin remote budget k cursor) i = Some u ->
    remote (k + i) u = Some page ->
    truthyUrl (next page) = None ->
    length (requestsWithin remote budget k cursor) = S i.
Proof.
  induction budget as [|b IH]; intros k cursor i u page Hi Hu Hnone.
  - destruct i; discriminate.
  - destruct (truthyUrl cursor) as [url|] eqn:Hc.
    2: { rewrite requestsWithin_falsy in Hi by exact Hc. destruct i; discriminate. }
    destruct i as [|i].
    + rewrite Nat.add_0_r in Hu.
      simpl in *. rewrite Hc in *. simpl in Hi. injection Hi as ->.
      rewrite Hu. simpl. now rewrite requestsWithin_falsy.
    + destruct (requestsWithin_step _ _ _ _ _ _ _ Hc Hi) as (data & Hd & Hprev).
      simpl. rewrite Hc, Hd. simpl. f_equal.
      rewrite Nat.add_succ_r in Hu. apply (IH (S k) (next data) i u page); assumption.
Qed.

Lemma CATALOG_URL_truthy : truthyUrl (Some CATALOG_URL) = Some CATALOG_URL.
Proof. reflexivity. Qed.

(** C6. The loop fetches at least one and at most 3 pages, starting at
    the catalogue URL; every further request is for the cursor that the
    response to the request before it carried, so the requests are made
    one after the other; the request whose response carries no next
    cursor is the last one. A catalogue that answers two pages and then
    [next = null] is fetched in exactly two requests, and the loop
    returns the books of both pages. *)
Theorem fetch_loop_pages (remote : Remote) :
  let urls := fst (fetchBooks remote) in
  (1 <= length urls <= 3)
  /\ nth_error urls 0 = Some CATALOG_URL
  /\ (forall i u u',
         nth_error urls i = Some u -> nth_error urls (S i) = Some u' ->
         exists page,
           remote i u = Some page /\ truthyUrl (next page) = Some u')
  /\ (forall i u page,
         nth_error urls i = Some u -> remote i u = Some page ->
         truthyUrl (next page) = None ->
         length urls = S i)
  /\ (forall page1 url2 page2,
         remote 0 CATALOG_URL = Some page1 ->
         truthyUrl (next page1) = Some url2 ->
         remote 1 url2 = Some page2 ->
         next page2 = None ->
         fetchBooks remote
         = ([CATALOG_URL; url2], Ok (results page1 ++ results page2))).
Proof.
  intros urls. subst urls. unfold fetchBooks.
  rewrite fetchLoop_requests. rewrite app_nil_l. change (3 - 0) with 3.
  assert (nth_error (requestsWithin remote 3 0 (Some CATALOG_URL)) 0
          = Some CATALOG_URL) as Hfirst by reflexivity.
  split; [|split; [|split; [|split]]].
  - split; [|apply requestsWithin_length].
    destruct (requestsWithin remote 3 0 (Some CATALOG_URL));
      [discriminate|simpl; lia].
  - exact Hfirst.
  - intros i. apply (requestsWithin_chain remote 3 0 (Some CATALOG_URL) i).
  - intros i. apply (requestsWithin_stop remote 3 0 (Some CATALOG_URL) i).
  - intros page1 url2 page2 H1 Hn1 H2 Hn2.
    simp fetchLoop. rewrite CATALOG_URL_truthy. simpl.
    rewrite H1. simpl. simp fetchLoop. rewrite Hn1. simpl.
    rewrite H2. simpl. simp fetchLoop. rewrite Hn2. simpl.
    reflexivity.
Qed.

Lemma fetch_loop_pages_witness :
  fetchBooks remoteTwoPages
  = ([CATALOG_URL; PAGE2_URL], Ok [bookDickens; bookAnonymous])
  /\ length (fst (fetchBooks remoteTwoPages)) = 2.
Proof.
  destruct (fetch_loop_pages remoteTwoPages) as (_ & _ & _ & Hstop & Htwo).
  split.
  - apply (Htwo {| results := [bookDickens]; next := Some PAGE2_URL |}
                PAGE2_URL
                {| results := [bookAnonymous]; next := None |});
      reflexivity.
  - apply (Hstop 1 PAGE2_URL {| results := [bookAnonymous]; next := None |});
      reflexivity.
Defined.

(** ** The effective year and the year filter *)

Lemma panelBooks_In (tl : TimelineData) (wd : WordData) (book : Book) :
  In book (panelBooks tl wd)
  <-> In book (wd_books wd)
      /\ (startYear tl <= filterYear book <= endYear tl)%Z.
Proof.
  unfold panelBooks, inTimeline. rewrite filter_In, andb_true_iff, !Z.leb_le.
  tauto.
Qed.

(** Away from year 0 the script's year is the specification's. *)
Lemma filterYear_spec (book : Book) :
  deathYearOf (firstAuthor book) <> Some 0%Z ->
  birthYearOf (firstAuthor book) <> Some 0%Z ->
  filterYear book = specEffectiveYear book.
Proof.
  unfold filterYear, authorYear, specEffectiveYear, truthyNum.
  destruct (deathYearOf (firstAuthor book)) as [d|];
    destruct (birthYearOf (firstAuthor book)) as [b|]; intros Hd Hb;
    repeat match goal with
           | |- context [(?z =? 0)%Z] =>
               destruct (Z.eqb_spec z 0); [subst; congruence|]
           end; reflexivity.
Qed.

(** C1, at the failing input. The first author of [bookYearZero] has
    [death_year = 0] and [birth_year = 1850]. As the claim words it the
    effective year is the death year, 0, which lies outside 1800..2023,
    so the book is not a satellite; the script's [||] takes 0 for absent,
    uses 1850 and keeps the book. *)
Theorem zero_year_taken_for_absent :
  deathYearOf (firstAuthor bookYearZero) = Some 0%Z
  /\ specEffectiveYear bookYearZero = 0%Z
  /\ specInRange fullRange bookYearZero = false
  /\ filterYear bookYearZero = 1850%Z
  /\ inTimeline fullRange bookYearZero = true
  /\ panelBooks fullRange
       {| text := lit "history"; frequency := 1; wd_books := [bookYearZero] |}
     = [bookYearZero].
Proof. repeat split; reflexivity. Qed.

Lemma filter_Forall2 {A} (R : A -> A -> Prop) (p : A -> bool) (l1 l2 : list A) :
  (forall x y, R x y -> p x = p y) ->
  Forall2 R l1 l2 -> Forall2 R (filter p l1) (filter p l2).
Proof.
  intros Hp. induction 1 as [|x y l1 l2 Hxy Hl IH]; simpl; [constructor|].
  rewrite (Hp x y Hxy). destruct (p y); [constructor|]; assumption.
Qed.

Lemma authorYear_first (b1 b2 : Book) :
  sameFirstAuthor b1 b2 -> authorYear b1 = authorYear b2.
Proof. unfold sameFirstAuthor, authorYear. now intros ->. Qed.

(** C10. The year used by the selection filter, by the visibility pass
    of the timeline and by the tooltip is a function of [authors[0]]
    alone: two books with the same first author get the same year, the
    same filter decision and the same tooltip year, and two words whose
    books agree pairwise on the first author get the same satellites
    (pairwise) and the same visibility, whatever the other authors are. *)
Theorem only_first_author_counts (tl : TimelineData) :
  (forall b1 b2,
      sameFirstAuthor b1 b2 ->
      filterYear b1 = filterYear b2
      /\ inTimeline tl b1 = inTimeline tl b2
      /\ tooltipYear b1 = tooltipYear b2)
  /\ (forall wd1 wd2,
         Forall2 sameFirstAuthor (wd_books wd1) (wd_books wd2) ->
         Forall2 sameFirstAuthor (panelBooks tl wd1) (panelBooks tl wd2)
         /\ wordVisible tl wd1 = wordVisible tl wd2).
Proof.
  assert (forall b1 b2, sameFirstAuthor b1 b2 ->
                        inTimeline tl b1 = inTimeline tl b2) as Hin.
  { intros b1 b2 H. unfold inTimeline, filterYear.
    now rewrite (authorYear_first b1 b2 H). }
  split.
  - intros b1 b2 H. unfold filterYear, tooltipYear.
    rewrite (authorYear_first b1 b2 H). auto.
  - intros wd1 wd2 H.
    pose proof (filter_Forall2 sameFirstAuthor (inTimeline tl) _ _ Hin H) as HF.
    split; [exact HF|].
    unfold wordVisible. now rewrite (Forall2_length HF).
Qed.

Lemma only_first_author_counts_witness :
  filterYear bookTwoAuthors = filterYear bookDickens
  /\ tooltipYear bookTwoAuthors = YearNumber 1870
  /\ wordVisible {| startYear := 1900; endYear := 2023 |}
       {| text := lit "letters"; frequency := 1; wd_books := [bookTwoAuthors] |}
     = wordVisible {| startYear := 1900; endYear := 2023 |}
         {| text := lit "letters"; frequency := 1; wd_books := [bookDickens] |}.
Proof.
  destruct (only_first_author_counts {| startYear := 1900; endYear := 2023 |})
    as [Hbook Hword].
  destruct (Hbook bookTwoAuthors bookDickens eq_refl) as (Hy & _ & Ht).
  split; [exact Hy|]. split; [rewrite Ht; reflexivity|].
  apply Hword. simpl. constructor; [reflexivity|constructor].
Defined.

(** ** The timeline bounds *)

Lemma exec_bind {A B} (m : M A) (k : A -> M B) (s : App) :
  exec (bind m k) s
  = match m s with
    | (Ok a, s') => exec (k a) s'
    | (Throw _, s') => s'
    end.
Proof. unfold exec, bind. now destruct (m s) as [[a|e] s']. Qed.

Lemma keeps_ret {A} (a : A) : keepsTimeline (ret a).
Proof. intros s. reflexivity. Qed.

Lemma keeps_throw {A} (e : jsError) : keepsTimeline (@throw A e).
Proof. intros s. reflexivity. Qed.

Lemma keeps_gets {A} (f : App -> A) : keepsTimeline (gets f).
Proof. intros s. reflexivity. Qed.

Lemma keeps_liftR {A} (r : result A) : keepsTimeline (liftR r).
Proof. intros s. reflexivity. Qed.

Lemma keeps_fresh : keepsTimeline fresh.
Proof. intros s. reflexivity. Qed.

Lemma keeps_modify (f : App -> App) :
  (forall s, timelineData (f s) = timelineData s) -> keepsTimeline (modify f).
Proof. intros Hf s. apply Hf. Qed.

Lemma keeps_bind {A B} (m : M A) (k : A -> M B) :
  keepsTimeline m -> (forall a, keepsTimeline (k a)) -> keepsTimeline (bind m k).
Proof.
  intros Hm Hk s. rewrite exec_bind. specialize (Hm s). unfold exec in Hm.
  destruct (m s) as [[a|e] s']; simpl in Hm; [|exact Hm].
  now rewrite Hk.
Qed.

Lemma keeps_forEachIdx {A Acc} (f : Acc -> A -> nat -> M Acc) (xs : list A) :
  (forall acc x i, keepsTimeline (f acc x i)) ->
  forall i acc, keepsTimeline (forEachIdx f xs i acc).
Proof.
  intros Hf. induction xs as [|x xs IH]; intros i acc; simpl.
  - apply keeps_ret.
  - apply keeps_bind; [apply Hf|]. intros a. apply IH.
Qed.

Create HintDb keeps.
#[local] Hint Resolve keeps_ret keeps_throw keeps_gets keeps_liftR
  keeps_fresh : keeps.

Ltac keeps_step :=
  first
    [ apply keeps_bind; [|intros ?]
    | apply keeps_forEachIdx; intros ? ? ?
    | apply keeps_modify; intros ?; reflexivity
    | solve [auto with keeps]
    | match goal with
      | |- keepsTimeline (match ?x with _ => _ end) => destruct x
      end ].

Lemma keeps_createPlanetMesh (book : Book) :
  keepsTimeline (createPlanetMesh book).
Proof. unfold createPlanetMesh. repeat keeps_step. Qed.

Lemma keeps_showPlanetaryPanel (wordData : option WordData) (p : Position) :
  keepsTimeline (showPlanetaryPanel wordData p).
Proof.
  unfold showPlanetaryPanel.
  repeat (apply keeps_createPlanetMesh || keeps_step).
Qed.

(** After its first statement [updateTimeline] does not assign to
    [timelineData] any more. *)
Lemma updateTimeline_timeline (s : App) :
  timelineData (exec updateTimeline s) = swapped (timelineData s).
Proof.
  unfold updateTimeline. rewrite exec_bind. cbn [gets].
  rewrite exec_bind. unfold swapped.
  match goal with
  | |- timelineData (match ?m s with _ => _ end) = _ =>
      assert (m s = (Ok tt, set_timelineData (swapped (timelineData s)) s)) as ->
  end.
  { unfold swapped. destruct (startYear (timelineData s) >? endYear (timelineData s))%Z;
      [reflexivity|]. unfold ret. now destruct s. }
  match goal with
  | |- timelineData (exec ?rest ?s1) = _ =>
      assert (keepsTimeline rest) as Hrest
  end.
  { repeat (apply keeps_showPlanetaryPanel || keeps_step). }
  rewrite Hrest. reflexivity.
Qed.

Lemma swapped_ordered (tl : TimelineData) : ordered (swapped tl).
Proof.
  unfold ordered, swapped.
  destruct (Z.gtb_spec (startYear tl) (endYear tl)); simpl; lia.
Qed.

(** C3. After [updateTimeline], and so after every change of either
    slider, start <= end: a start above the end makes the two values
    change places, anything else leaves them as they are; this holds
    whether or not the rest of the handler returns. With start = 2000
    and end = 1900 the result is start = 1900, end = 2000. *)
Theorem timeline_bounds_ordered (s : App) (v : Z) :
  ordered (timelineData (exec updateTimeline s))
  /\ ordered (timelineData (exec (onChangeStartYear v) s))
  /\ ordered (timelineData (exec (onChangeEndYear v) s))
  /\ timelineData (exec updateTimeline s) = swapped (timelineData s)
  /\ timelineData (exec (onChangeStartYear v) s)
     = swapped {| startYear := v; endYear := endYear (timelineData s) |}
  /\ timelineData (exec (onChangeEndYear v) s)
     = swapped {| startYear := startYear (timelineData s); endYear := v |}
  /\ timelineData
       (exec updateTimeline
          (set_timelineData {| startYear := 2000; endYear := 1900 |} s))
     = {| startYear := 1900; endYear := 2000 |}.
Proof.
  assert (timelineData (exec (onChangeStartYear v) s)
          = swapped {| startYear := v; endYear := endYear (timelineData s) |})
    as Hs.
  { unfold onChangeStartYear. rewrite exec_bind. cbn [modify].
    now rewrite updateTimeline_timeline. }
  assert (timelineData (exec (onChangeEndYear v) s)
          = swapped {| startYear := startYear (timelineData s); endYear := v |})
    as He.
  { unfold onChangeEndYear. rewrite exec_bind. cbn [modify].
    now rewrite updateTimeline_timeline. }
  rewrite Hs, He, !updateTimeline_timeline.
  repeat split; try apply swapped_ordered; reflexivity.
Qed.

(** ** The scene graph *)

Lemma Object3D_induction (P : Object3D -> Prop) :
  (forall i n u v p cs, Forall P cs -> P (mkObject3D i n u v p cs)) ->
  forall o, P o.
Proof.
  intros H. fix IH 1. intros [i n u v p cs]. apply H.
  revert cs. fix IHcs 1. intros [|c cs].
  - constructor.
  - constructor; [apply IH|apply IHcs].
Qed.

Lemma firstSome_none {A B} (f : A -> option B) (l : list A) :
  Forall (fun x => f x = None) l -> firstSome f l = None.
Proof. induction 1 as [|x l Hx Hl IH]; simpl; [reflexivity|now rewrite Hx]. Qed.

Lemma firstSome_app {A B} (f : A -> option B) (l1 l2 : list A) :
  firstSome f (l1 ++ l2)
  = match firstSome f l1 with
    | Some r => Some r
    | None => firstSome f l2
    end.
Proof.
  induction l1 as [|x l1 IH]; simpl; [reflexivity|].
  destruct (f x); [reflexivity|exact IH].
Qed.

Lemma objectIds_root (o : Object3D) :
  objectIds o = id o :: flat_map objectIds (children o).
Proof. now destruct o. Qed.

Lemma objects_root (o : Object3D) :
  objects o = o :: flat_map objects (children o).
Proof. now destruct o. Qed.

Lemma In_objects_ids (o t : Object3D) :
  In o (objects t) -> In (id o) (objectIds t).
Proof.
  revert o. induction t as [i n u v p cs IH] using Object3D_induction.
  intros o [<-|Hin]; [now left|]. right.
  apply in_flat_map in Hin as (c & Hc & Ho). apply in_flat_map.
  exists c. split; [exact Hc|]. rewrite Forall_forall in IH. now apply IH.
Qed.

Lemma plain_children (o : Object3D) :
  plain o -> Forall plain (children o).
Proof.
  unfold plain. rewrite objects_root. intros H. inversion H; subst.
  now apply Forall_flat_map.
Qed.

Lemma getObjectByName_plain (o : Object3D) :
  plain o -> getObjectByName PLANET_GROUP o = None.
Proof.
  induction o as [i n u v p cs IH] using Object3D_induction. intros Hp.
  pose proof (plain_children _ Hp) as Hcs. simpl in Hcs.
  unfold plain in Hp. rewrite objects_root in Hp.
  inversion Hp as [|? ? [Hn _] _]; subst. simpl in Hn.
  simpl. apply String.eqb_neq in Hn. rewrite Hn.
  apply firstSome_none. rewrite Forall_forall in *. auto.
Qed.

Lemma getObjectById_absent (i : nat) (o : Object3D) :
  ~ In i (objectIds o) -> getObjectById i o = None.
Proof.
  induction o as [j n u v p cs IH] using Object3D_induction. simpl.
  intros Hni. destruct (Nat.eqb_spec j i) as [->|_]; [tauto|].
  apply firstSome_none. rewrite Forall_forall in *. intros c Hc.
  apply IH; [exact Hc|]. intros Hin. apply Hni. right.
  apply in_flat_map. eauto.
Qed.

Lemma modifyById_absent (i : nat) (f : Object3D -> Object3D) (o : Object3D) :
  ~ In i (objectIds o) -> modifyById i f o = o.
Proof.
  induction o as [j n u v p cs IH] using Object3D_induction. simpl.
  intros Hni. destruct (Nat.eqb_spec j i) as [->|_]; [tauto|].
  f_equal. rewrite <- (map_id cs) at 2. apply map_ext_in.
  rewrite Forall_forall in IH. intros c Hc. apply IH; [exact Hc|].
  intros Hin. apply Hni. right. apply in_flat_map. eauto.
Qed.

Lemma NoDup_app_disjoint {A} (l1 l2 : list A) (x : A) :
  NoDup (l1 ++ l2) -> In x l1 -> In x l2 -> False.
Proof.
  induction l1 as [|a l1 IH]; simpl; [tauto|].
  intros Hnd [->|H1] H2; inversion Hnd; subst.
  - match goal with H : ~ In _ _ |- _ => apply H end.
    apply in_or_app. now right.
  - now apply IH.
Qed.

Lemma ids_extend (ids : list nat) (n k : nat) :
  NoDup ids -> Forall (fun i => i < n) ids ->
  NoDup (ids ++ seq n k) /\ Forall (fun i => i < n + k) (ids ++ seq n k).
Proof.
  intros Hnd Hlt. split.
  - apply NoDup_app; [exact Hnd|apply seq_NoDup|].
    intros a Ha Hs. rewrite Forall_forall in Hlt. apply Hlt in Ha.
    apply in_seq in Hs. lia.
  - apply Forall_app. split.
    + eapply Forall_impl; [|exact Hlt]. simpl. lia.
    + apply Forall_forall. intros a Ha. apply in_seq in Ha. lia.
Qed.

(** ** What [showPlanetaryPanel] and [createWordCloud] do, in one step *)

Lemma planet_loop (total : nat) (center : Position) (bks : list Book) :
  forall index g s,
    forEachIdx
      (fun planetGroup book index =>
         planet <- createPlanetMesh book ;;
         ret (add planetGroup (positionPlanet planet index total center)))
      bks index g s
    = (Ok (set_children g
             (children g ++ planetsFrom (nextId s) index total center bks)),
       set_nextId (nextId s + length bks) s).
Proof.
  induction bks as [|book bks IH]; intros index g s.
  - destruct g, s. simpl. unfold ret, set_children, set_nextId. simpl.
    now rewrite app_nil_r, Nat.add_0_r.
  - cbn [forEachIdx]. unfold bind at 1.
    unfold bind at 1, createPlanetMesh, bind at 1, fresh, ret. rewrite IH.
    unfold add, positionPlanet, set_children, set_position, set_nextId.
    simpl. rewrite <- app_assoc. simpl.
    now replace (S (nextId s + length bks)) with (nextId s + S (length bks)) by lia.
Qed.

Lemma showPlanetaryPanel_Some (wd : WordData) (p : Position) (s : App) :
  showPlanetaryPanel (Some wd) p s
  = (Ok tt,
     set_scene
       (add (sceneWithoutPanel (scene s))
            (panelGroup (nextId s) (timelineData s) wd p))
       (set_nextId (S (nextId s) + length (panelBooks (timelineData s) wd)) s)).
Proof.
  unfold showPlanetaryPanel, sceneWithoutPanel, panelGroup.
  unfold bind at 1. cbn [gets].
  unfold bind at 1.
  destruct (getObjectByName PLANET_GROUP (scene s)) as [g|];
    cbn [modify ret]; unfold bind at 1; cbn [fresh];
    unfold bind at 1; cbn [gets]; unfold bind at 1;
    rewrite planet_loop; cbn [modify];
    unfold set_scene, set_nextId, set_children; simpl; reflexivity.
Qed.

Lemma showPlanetaryPanel_None (p : Position) (s : App) :
  showPlanetaryPanel None p s
  = (Throw (TypeError "wordData is undefined"),
     set_scene (sceneWithoutPanel (scene s)) (set_nextId (S (nextId s)) s)).
Proof.
  unfold showPlanetaryPanel, sceneWithoutPanel.
  unfold bind at 1. cbn [gets]. unfold bind at 1.
  destruct (getObjectByName PLANET_GROUP (scene s)) as [g|];
    cbn [modify ret]; unfold bind at 1; cbn [fresh throw];
    unfold set_scene, set_nextId; simpl; reflexivity.
Qed.

Lemma planetsFrom_ids (total : nat) (center : Position) (bks : list Book) :
  forall firstId index,
    flat_map objectIds (planetsFrom firstId index total center bks)
    = seq firstId (length bks).
Proof.
  induction bks as [|b bks IH]; intros firstId index; simpl; [reflexivity|].
  now rewrite IH.
Qed.

Lemma planetsFrom_objects (total : nat) (center : Position) (bks : list Book) :
  forall firstId index,
    flat_map objects (planetsFrom firstId index total center bks)
    = planetsFrom firstId index total center bks.
Proof.
  induction bks as [|b bks IH]; intros firstId index; simpl; [reflexivity|].
  now rewrite IH.
Qed.

Lemma planetsFrom_planetLike (total : nat) (center : Position)
    (bks : list Book) :
  forall firstId index,
    Forall planetLike (planetsFrom firstId index total center bks).
Proof.
  induction bks as [|b bks IH]; intros firstId index; simpl; constructor.
  - repeat split.
  - apply IH.
Qed.

Lemma planetsFrom_books (total : nat) (center : Position) (bks : list Book) :
  forall firstId index,
    map (fun o => ud_book (userData o))
        (filter isPlanet (planetsFrom firstId index total center bks))
    = map Some bks.
Proof.
  induction bks as [|b bks IH]; intros firstId index; simpl; [reflexivity|].
  now rewrite IH.
Qed.

Lemma planetsFrom_names (total : nat) (center : Position) (bks : list Book) :
  forall firstId index,
    filter (isNamed PLANET_GROUP) (planetsFrom firstId index total center bks)
    = [].
Proof.
  induction bks as [|b bks IH]; intros firstId index; simpl; [reflexivity|].
  apply IH.
Qed.

Lemma panelGroup_ids (n : nat) (tl : TimelineData) (wd : WordData)
    (p : Position) :
  objectIds (panelGroup n tl wd p) = seq n (S (length (panelBooks tl wd))).
Proof. unfold panelGroup. simpl. now rewrite planetsFrom_ids. Qed.

Lemma panelGroup_isPanel (n : nat) (tl : TimelineData) (wd : WordData)
    (p : Position) :
  isPanel (panelGroup n tl wd p).
Proof. repeat split. apply planetsFrom_planetLike. Qed.

(** ** The scene invariant *)

Lemma removeChild_last (base : list Object3D) (g : Object3D) :
  ~ In (id g) (map id base) -> removeChild (id g) (base ++ [g]) = base.
Proof.
  induction base as [|c base IH]; simpl; intros Hni.
  - now rewrite Nat.eqb_refl.
  - destruct (Nat.eqb_spec (id c) (id g)) as [E|_]; [tauto|].
    rewrite IH; [reflexivity|tauto].
Qed.

Lemma id_in_objectIds (o : Object3D) : In (id o) (objectIds o).
Proof. rewrite objectIds_root. now left. Qed.

Lemma child_id_in_ids (cs : list Object3D) (i : nat) :
  In i (map id cs) -> In i (flat_map objectIds cs).
Proof.
  intros H. apply in_map_iff in H as (c & <- & Hc).
  apply in_flat_map. exists c. split; [exact Hc|apply id_in_objectIds].
Qed.

(** Under the invariant the search for the selection group finds the
    group after the plain children, if there is one, and removing it
    leaves the plain children. *)
Lemma withoutPanel_base (sc : Object3D) (base panel : list Object3D) :
  name sc <> PLANET_GROUP ->
  children sc = base ++ panel ->
  Forall plain base ->
  (panel = [] \/ exists g, panel = [g] /\ isPanel g) ->
  NoDup (objectIds sc) ->
  getObjectByName PLANET_GROUP sc = hd_error panel
  /\ sceneWithoutPanel sc = set_children sc base.
Proof.
  destruct sc as [i n u v p cs]. simpl. intros Hn -> Hbase Hpanel Hnd.
  unfold sceneWithoutPanel. simpl.
  apply String.eqb_neq in Hn. rewrite Hn, firstSome_app.
  rewrite (firstSome_none _ base)
    by (eapply Forall_impl; [|exact Hbase]; apply getObjectByName_plain).
  destruct Hpanel as [->|(g & -> & Hg & _)]; simpl.
  - unfold set_children. simpl. now rewrite app_nil_r.
  - assert (getObjectByName PLANET_GROUP g = Some g) as ->.
    { destruct g as [gi gn gu gv gp gcs]. simpl in *. subst gn.
      now rewrite String.eqb_refl. }
    split; [reflexivity|].
    unfold remove, set_children. simpl. rewrite removeChild_last; [reflexivity|].
    intros Hin. apply child_id_in_ids in Hin.
    inversion Hnd as [|? ? _ Hnd']; subst. rewrite flat_map_app in Hnd'.
    apply (NoDup_app_disjoint _ _ (id g) Hnd' Hin).
    simpl. apply in_or_app. left. apply id_in_objectIds.
Qed.

Lemma prefix_ids (sc : Object3D) (base panel : list Object3D) (n : nat) :
  children sc = base ++ panel ->
  NoDup (objectIds sc) ->
  Forall (fun i => i < n) (objectIds sc) ->
  NoDup (id sc :: flat_map objectIds base)
  /\ Forall (fun i => i < n) (id sc :: flat_map objectIds base).
Proof.
  rewrite objectIds_root. intros ->. rewrite flat_map_app.
  change (id sc :: flat_map objectIds base ++ flat_map objectIds panel)
    with ((id sc :: flat_map objectIds base) ++ flat_map objectIds panel).
  intros Hnd Hlt. split.
  - eapply NoDup_app_remove_r; exact Hnd.
  - now apply Forall_app in Hlt.
Qed.

Lemma Inv_base (sc : Object3D) (base panel : list Object3D)
    (wg : option nat) (n : nat) :
  name sc <> PLANET_GROUP /\ ud_book (userData sc) = None ->
  children sc = base ++ panel ->
  Forall plain base ->
  (forall gid, wg = Some gid -> In gid (map id base)) ->
  NoDup (objectIds sc) ->
  Forall (fun i => i < n) (objectIds sc) ->
  Inv (set_children sc base) wg (S n).
Proof.
  intros Hroot Hcs Hbase Hwg Hnd Hlt.
  destruct (prefix_ids sc base panel n Hcs Hnd Hlt) as [Hnd' Hlt'].
  split; [exact Hroot|]. split; [|split].
  - exists base, []. simpl. rewrite app_nil_r. auto.
  - rewrite objectIds_root. exact Hnd'.
  - rewrite objectIds_root. simpl.
    eapply Forall_impl; [|exact Hlt']. simpl. lia.
Qed.

Lemma Inv_add_panel (sc : Object3D) (base panel : list Object3D)
    (wg : option nat) (n k : nat) (grp : Object3D) :
  name sc <> PLANET_GROUP /\ ud_book (userData sc) = None ->
  children sc = base ++ panel ->
  Forall plain base ->
  (forall gid, wg = Some gid -> In gid (map id base)) ->
  NoDup (objectIds sc) ->
  Forall (fun i => i < n) (objectIds sc) ->
  isPanel grp ->
  objectIds grp = seq n k ->
  Inv (add (set_children sc base) grp) wg (n + k).
Proof.
  intros Hroot Hcs Hbase Hwg Hnd Hlt Hgrp Hids.
  destruct (prefix_ids sc base panel n Hcs Hnd Hlt) as [Hnd' Hlt'].
  destruct (ids_extend _ n k Hnd' Hlt') as [Hnd2 Hlt2].
  assert (objectIds (add (set_children sc base) grp)
          = (id sc :: flat_map objectIds base) ++ seq n k) as E.
  { rewrite objectIds_root. simpl. rewrite flat_map_app. simpl.
    now rewrite app_nil_r, Hids. }
  split; [exact Hroot|]. split; [|split].
  - exists base, [grp]. simpl. repeat split; eauto.
  - now rewrite E.
  - now rewrite E.
Qed.

Lemma sceneInv_showPlanetaryPanel (wordData : option WordData) (p : Position)
    (s : App) :
  sceneInv s -> sceneInv (exec (showPlanetaryPanel wordData p) s).
Proof.
  unfold sceneInv. intros (Hroot & (base & panel & Hcs & Hbase & Hpanel & Hwg)
                           & Hnd & Hlt).
  destruct (withoutPanel_base _ _ _ (proj1 Hroot) Hcs Hbase Hpanel Hnd)
    as [_ Hwo].
  unfold exec. destruct wordData as [wd|].
  - rewrite showPlanetaryPanel_Some. simpl. rewrite Hwo.
    replace (S (nextId s + length (panelBooks (timelineData s) wd)))
      with (nextId s + S (length (panelBooks (timelineData s) wd))) by lia.
    eapply Inv_add_panel; eauto using panelGroup_isPanel, panelGroup_ids.
  - rewrite showPlanetaryPanel_None. simpl. rewrite Hwo.
    eapply Inv_base; eauto.
Qed.

(** *** The visibility pass of [updateTimeline] *)

Lemma updateVisibility_ids (tl : TimelineData) (meshes : list Object3D) :
  flat_map objectIds (fst (updateVisibility tl meshes))
  = flat_map objectIds meshes.
Proof.
  induction meshes as [|m ms IH]; simpl; [reflexivity|].
  destruct (ud_wordData (userData m)); [|reflexivity].
  destruct (updateVisibility tl ms) as [ms' r]. simpl in *.
  rewrite IH. now destruct m.
Qed.

Lemma plain_set_visible (m : Object3D) (v : bool) :
  plain m -> plain (set_visible m v).
Proof. unfold plain. rewrite !objects_root. simpl. now inversion 1; constructor. Qed.

Lemma updateVisibility_plain (tl : TimelineData) (meshes : list Object3D) :
  Forall plain meshes -> Forall plain (fst (updateVisibility tl meshes)).
Proof.
  induction 1 as [|m ms Hm Hms IH]; simpl; [constructor|].
  destruct (ud_wordData (userData m)); [|now constructor].
  destruct (updateVisibility tl ms) as [ms' r]. simpl in *.
  constructor; [now apply plain_set_visible|exact IH].
Qed.

Lemma getObjectById_self (c : Object3D) : getObjectById (id c) c = Some c.
Proof. destruct c. simpl. now rewrite Nat.eqb_refl. Qed.

Lemma modifyById_self (f : Object3D -> Object3D) (c : Object3D) :
  modifyById (id c) f c = f c.
Proof. destruct c. simpl. now rewrite Nat.eqb_refl. Qed.

Lemma find_child_at (b1 rest : list Object3D) (c : Object3D) :
  Forall (fun x => ~ In (id c) (objectIds x)) b1 ->
  firstSome (getObjectById (id c)) (b1 ++ c :: rest) = Some c.
Proof.
  intros H. rewrite firstSome_app, firstSome_none.
  - simpl. now rewrite getObjectById_self.
  - eapply Forall_impl; [|exact H]. intros x. apply getObjectById_absent.
Qed.

Lemma modify_child_at (f : Object3D -> Object3D) (b1 rest : list Object3D)
    (c : Object3D) :
  Forall (fun x => ~ In (id c) (objectIds x)) (b1 ++ rest) ->
  map (modifyById (id c) f) (b1 ++ c :: rest) = b1 ++ f c :: rest.
Proof.
  intros H. apply Forall_app in H as [H1 H2].
  assert (forall l, Forall (fun x => ~ In (id c) (objectIds x)) l ->
                    map (modifyById (id c) f) l = l) as Hsame.
  { induction 1 as [|x l Hx Hl IH]; simpl; [reflexivity|].
    now rewrite IH, modifyById_absent. }
  rewrite map_app. simpl. now rewrite modifyById_self, !Hsame.
Qed.

(** The child that [wordGroup] refers to is the only object with its
    identity. *)
Lemma only_child_with_id (i : nat) (b1 rest : list Object3D) (c : Object3D) :
  NoDup (i :: flat_map objectIds (b1 ++ c :: rest)) ->
  i <> id c
  /\ Forall (fun x => ~ In (id c) (objectIds x)) (b1 ++ rest).
Proof.
  intros Hnd. inversion Hnd as [|? ? Hi Hnd']; subst.
  pose proof (id_in_objectIds c) as Hc.
  rewrite flat_map_app in Hnd', Hi. simpl in Hnd', Hi. split.
  - intros ->. apply Hi. apply in_or_app. right. apply in_or_app. now left.
  - apply Forall_app. split; apply Forall_forall; intros x Hx Hin.
    + apply (NoDup_app_disjoint _ _ (id c) Hnd').
      * apply in_flat_map. eauto.
      * apply in_or_app. now left.
    + apply NoDup_app_remove_l in Hnd'.
      apply (NoDup_app_disjoint _ _ (id c) Hnd' Hc).
      apply in_flat_map. eauto.
Qed.

Lemma visibility_pass (sc : Object3D) (base panel : list Object3D)
    (gid : nat) (tl : TimelineData) :
  children sc = base ++ panel ->
  Forall plain base ->
  In gid (map id base) ->
  NoDup (objectIds sc) ->
  exists base',
    modifyById gid
      (fun g => set_children g
         (fst (updateVisibility tl
                 match getObjectById gid sc with
                 | Some group => children group
                 | None => []
                 end))) sc
    = set_children sc (base' ++ panel)
    /\ Forall plain base'
    /\ map id base' = map id base
    /\ flat_map objectIds base' = flat_map objectIds base.
Proof.
  destruct sc as [i n u v p cs]. simpl. intros -> Hbase Hgid Hnd.
  apply in_map_iff in Hgid as (c & <- & Hc).
  apply in_split in Hc as (b1 & b2 & ->).
  rewrite <- app_assoc in *. simpl in *.
  destruct (only_child_with_id _ _ _ _ Hnd) as [Hi Hothers].
  apply Nat.eqb_neq in Hi. rewrite Hi.
  rewrite find_child_at
    by (apply Forall_app in Hothers as [H1 _]; exact H1).
  rewrite modify_child_at by exact Hothers.
  set (meshes' := fst (updateVisibility tl (children c))).
  exists (b1 ++ set_children c meshes' :: b2).
  unfold set_children at 2. simpl. rewrite <- app_assoc. simpl.
  split; [reflexivity|].
  apply Forall_app in Hbase as [Hb1 Hb2].
  inversion Hb2 as [|? ? Hpc Hb2']; subst.
  split; [|split].
  - apply Forall_app. split; [exact Hb1|]. constructor; [|exact Hb2'].
    pose proof (updateVisibility_plain tl _ (plain_children _ Hpc)) as Hm.
    unfold plain in *. rewrite objects_root in *. simpl.
    inversion Hpc; subst. constructor; [assumption|].
    now apply Forall_flat_map.
  - rewrite !map_app. reflexivity.
  - rewrite !flat_map_app. simpl. rewrite !objectIds_root. simpl.
    subst meshes'. now rewrite updateVisibility_ids.
Qed.

Lemma Inv_visibility (sc : Object3D) (gid n : nat) (tl : TimelineData) :
  Inv sc (Some gid) n ->
  let sc' :=
    modifyById gid
      (fun g => set_children g
         (fst (updateVisibility tl
                 match getObjectById gid sc with
                 | Some group => children group
                 | None => []
                 end))) sc in
  Inv sc' (Some gid) n
  /\ getObjectByName PLANET_GROUP sc' = getObjectByName PLANET_GROUP sc.
Proof.
  intros (Hroot & (base & panel & Hcs & Hbase & Hpanel & Hwg) & Hnd & Hlt) sc'.
  destruct (visibility_pass sc base panel gid tl Hcs Hbase (Hwg gid eq_refl) Hnd)
    as (base' & E & Hbase' & Hids & Hall).
  subst sc'. rewrite E.
  assert (objectIds (set_children sc (base' ++ panel)) = objectIds sc) as Eids.
  { rewrite !objectIds_root, Hcs. simpl. now rewrite !flat_map_app, Hall. }
  assert (Inv (set_children sc (base' ++ panel)) (Some gid) n) as HInv.
  { split; [exact Hroot|]. split; [|split].
    - exists base', panel. simpl. repeat split; auto.
      intros g [= <-]. rewrite Hids. now apply Hwg.
    - now rewrite Eids.
    - now rewrite Eids. }
  split; [exact HInv|].
  destruct (withoutPanel_base _ _ _ (proj1 Hroot) Hcs Hbase Hpanel Hnd) as [-> _].
  destruct HInv as (_ & _ & Hnd' & _).
  destruct (withoutPanel_base (set_children sc (base' ++ panel)) base' panel
              (proj1 Hroot) eq_refl Hbase' Hpanel Hnd') as [-> _].
  reflexivity.
Qed.

(** *** The handlers keep the invariant *)

(** [updateTimeline] in one step: the swap, the visibility pass, and the
    refresh of an open selection. *)
Lemma updateTimeline_run (s : App) :
  updateTimeline s
  = let s1 := set_timelineData (swapped (timelineData s)) s in
    match wordGroup s with
    | None => (Throw (TypeError "wordGroup is undefined"), s1)
    | Some gid =>
        let vis := updateVisibility (timelineData s1)
                     match getObjectById gid (scene s) with
                     | Some group => children group
                     | None => []
                     end in
        let s2 := set_scene
                    (modifyById gid (fun g => set_children g (fst vis))
                       (scene s)) s1 in
        match snd vis with
        | Throw e => (Throw e, s2)
        | Ok _ =>
            match getObjectByName PLANET_GROUP (scene s2) with
            | Some planetGroup =>
                match nth_error (children planetGroup) 0 with
                | Some wordMesh =>
                    showPlanetaryPanel (ud_wordData (userData wordMesh))
                                       (position wordMesh) s2
                | None => (Throw (TypeError "wordMesh is undefined"), s2)
                end
            | None => (Ok tt, s2)
            end
        end
    end.
Proof.
  destruct s as [sc wds wg tl g n net con].
  cbv beta iota zeta
      delta [updateTimeline swapped bind gets modify ret liftR throw
             timelineData set_timelineData scene wordGroup].
  destruct (startYear tl >? endYear tl)%Z;
    cbv beta iota zeta
        delta [timelineData set_timelineData scene wordGroup wordsData gui
               nextId network console];
    (destruct wg as [gid|]; [|reflexivity]);
    match goal with
    | |- context [updateVisibility ?t ?l] =>
        destruct (updateVisibility t l) as [ms [[]|e]]
    end;
    cbv beta iota zeta delta [fst snd];
    try reflexivity;
    match goal with
    | |- context [getObjectByName ?nm ?sc] =>
        destruct (getObjectByName nm sc) as [pg|]
    end;
    try reflexivity;
    match goal with
    | |- context [nth_error ?l 0] => destruct (nth_error l 0)
    end; reflexivity.
Qed.

Lemma sceneInv_updateTimeline (s : App) :
  sceneInv s -> sceneInv (exec updateTimeline s).
Proof.
  intros HInv. unfold exec. rewrite updateTimeline_run. cbv zeta.
  unfold sceneInv in HInv.
  destruct (wordGroup s) as [gid|] eqn:Hwg;
    [|unfold sceneInv; simpl; now rewrite Hwg].
  destruct (Inv_visibility _ gid _
              (timelineData (set_timelineData (swapped (timelineData s)) s))
              HInv) as [HInv2 _].
  cbv zeta in HInv2.
  match goal with
  | |- context [set_scene ?sc' ?s1] =>
      assert (sceneInv (set_scene sc' s1)) as H2
        by (unfold sceneInv; simpl; rewrite Hwg; exact HInv2)
  end.
  destruct (snd (updateVisibility _ _)); [|exact H2].
  destruct (getObjectByName PLANET_GROUP _) as [pg|]; [|exact H2].
  destruct (nth_error (children pg) 0) as [wm|]; [|exact H2].
  apply sceneInv_showPlanetaryPanel. exact H2.
Qed.

Lemma sceneInv_onClick (hit : option nat) (s : App) :
  sceneInv s -> sceneInv (exec (onClick hit) s).
Proof.
  intros HInv. unfold exec, onClick. unfold bind at 1. cbn [gets].
  destruct (wordGroup s) as [gid|]; [|exact HInv].
  unfold bind at 1. cbn [gets].
  destruct hit as [i|]; [|destruct (getObjectById gid (scene s)); exact HInv].
  destruct (getObjectById gid (scene s)) as [group|]; [|exact HInv].
  destruct (nth_error (children group) i) as [mesh|]; [|exact HInv].
  destruct (ud_wordData (userData mesh)) as [wd|]; [|exact HInv].
  now apply sceneInv_showPlanetaryPanel.
Qed.

Lemma sceneInv_dispatch (e : Event) (s : App) :
  sceneInv s -> sceneInv (dispatch e s).
Proof.
  intros HInv. destruct e as [hit|v|v]; unfold dispatch; simpl.
  - now apply sceneInv_onClick.
  - unfold onChangeStartYear. rewrite exec_bind. cbn [modify].
    apply sceneInv_updateTimeline. exact HInv.
  - unfold onChangeEndYear. rewrite exec_bind. cbn [modify].
    apply sceneInv_updateTimeline. exact HInv.
Qed.

(** *** Loading *)

Lemma word_loop (total : nat) (wds : list WordData) :
  forall index g s,
    forEachIdx
      (fun group wordData index =>
         wordMesh <- createWordMesh wordData ;;
         ret (add group (positionOnSphere wordMesh index total)))
      wds index g s
    = (Ok (set_children g
             (children g ++ wordMeshesFrom (nextId s) index total wds)),
       set_nextId (nextId s + 2 * length wds) s).
Proof.
  induction wds as [|wd wds IH]; intros index g s.
  - destruct g, s. simpl. unfold ret, set_children, set_nextId. simpl.
    now rewrite app_nil_r, Nat.add_0_r.
  - cbn [forEachIdx]. unfold bind at 1.
    unfold bind at 1, createWordMesh, bind at 1, fresh, bind at 1, ret.
    rewrite IH.
    unfold add, positionOnSphere, set_children, set_position, set_nextId,
      newObject.
    simpl. rewrite <- app_assoc. simpl.
    now replace (S (S (nextId s + (length wds + (length wds + 0)))))
      with (nextId s + S (length wds + S (length wds + 0))) by lia.
Qed.

Lemma createWordCloud_run (s : App) :
  createWordCloud s
  = (Ok tt,
     set_scene
       (add (scene s)
            (mkObject3D (nextId s) "" emptyUserData true Origin
               (wordMeshesFrom (S (nextId s)) 0 (length (wordsData s))
                  (wordsData s))))
       (set_wordGroup (Some (nextId s))
          (set_nextId (S (nextId s) + 2 * length (wordsData s)) s))).
Proof.
  unfold createWordCloud. unfold bind at 1. cbn [fresh].
  unfold bind at 1. cbn [modify]. unfold bind at 1. cbn [gets].
  unfold bind at 1. rewrite word_loop. cbn [modify].
  unfold set_scene, set_wordGroup, set_nextId, set_children, newObject.
  simpl. reflexivity.
Qed.

Lemma wordMeshesFrom_ids (total : nat) (wds : list WordData) :
  forall firstId index,
    flat_map objectIds (wordMeshesFrom firstId index total wds)
    = seq firstId (2 * length wds).
Proof.
  induction wds as [|wd wds IH]; intros firstId index; simpl; [reflexivity|].
  rewrite IH. simpl.
  now replace (length wds + S (length wds + 0))
    with (S (length wds + (length wds + 0))) by lia.
Qed.

Lemma wordMeshesFrom_plain (total : nat) (wds : list WordData) :
  forall firstId index,
    Forall plain (wordMeshesFrom firstId index total wds).
Proof.
  induction wds as [|wd wds IH]; intros firstId index; simpl; constructor.
  - repeat constructor; discriminate.
  - apply IH.
Qed.

(** [loadData] in one step. *)
Lemma loadData_run (remote : Remote) (s : App) :
  loadData remote s
  = let s1 := set_network (network s ++ fst (fetchBooks remote)) s in
    match rbind (snd (fetchBooks remote)) indexBooks with
    | Throw e => (Ok tt, set_console (console s ++ [e]) s1)
    | Ok wds =>
        (Ok tt,
         set_gui true
           (set_scene
              (add (scene s)
                 (mkObject3D (nextId s) "" emptyUserData true Origin
                    (wordMeshesFrom (S (nextId s)) 0 (length wds) wds)))
              (set_wordGroup (Some (nextId s))
                 (set_nextId (S (nextId s) + 2 * length wds)
                    (set_wordsData wds s1)))))
    end.
Proof.
  unfold loadData, tryCatch.
  destruct (fetchBooks remote) as [urls [allBooks|e]]; cbn [fst snd rbind].
  2: { reflexivity. }
  cbv beta iota zeta delta [bind modify liftR createTimeline].
  destruct (indexBooks allBooks) as [wds|e]; [|reflexivity].
  rewrite createWordCloud_run. reflexivity.
Qed.

(** The two ways [loadData] can leave the initial page. *)
Lemma loadData_initial (remote : Remote) :
  let s := exec (loadData remote) initialApp in
  (scene s = scene initialApp /\ wordGroup s = None /\ nextId s = 3
   /\ gui s = false)
  \/ (scene s
      = add (scene initialApp)
            (mkObject3D 3 "" emptyUserData true Origin
               (wordMeshesFrom 4 0 (length (wordsData s)) (wordsData s)))
      /\ wordGroup s = Some 3
      /\ nextId s = 4 + 2 * length (wordsData s)
      /\ gui s = true
      /\ rbind (snd (fetchBooks remote)) indexBooks = Ok (wordsData s)).
Proof.
  unfold exec. rewrite loadData_run. cbv zeta.
  destruct (rbind (snd (fetchBooks remote)) indexBooks) as [wds|e].
  - right. repeat split.
  - left. repeat split.
Qed.

Lemma sceneInv_initial : sceneInv initialApp.
Proof.
  unfold sceneInv. simpl. split; [split; [discriminate|reflexivity]|].
  split; [|split].
  - exists [newObject 1; newObject 2], []. repeat split.
    + repeat constructor; discriminate.
    + now left.
    + discriminate.
  - change (NoDup (seq 0 3)). apply seq_NoDup.
  - repeat constructor.
Qed.

Lemma sceneInv_loadData (remote : Remote) :
  sceneInv (exec (loadData remote) initialApp).
Proof.
  destruct (loadData_initial remote)
    as [(Hsc & Hwg & Hn & _)|(Hsc & Hwg & Hn & _)];
    unfold sceneInv; rewrite Hsc, Hwg, Hn.
  - apply sceneInv_initial.
  - set (wds := wordsData (exec (loadData remote) initialApp)).
    assert (objectIds
              (add (scene initialApp)
                 (mkObject3D 3 "" emptyUserData true Origin
                    (wordMeshesFrom 4 0 (length wds) wds)))
            = seq 0 (4 + 2 * length wds)) as E.
    { simpl. now rewrite wordMeshesFrom_ids, app_nil_r. }
    split; [split; [discriminate|reflexivity]|]. split; [|split].
    + exists [newObject 1; newObject 2;
              mkObject3D 3 "" emptyUserData true Origin
                (wordMeshesFrom 4 0 (length wds) wds)], [].
      repeat split.
      * repeat constructor; try discriminate.
        apply Forall_flat_map. apply wordMeshesFrom_plain.
      * now left.
      * intros gid [= <-]. simpl. auto.
    + rewrite E. apply seq_NoDup.
    + rewrite E. apply Forall_forall. intros i Hi. apply in_seq in Hi. lia.
Qed.

Lemma sceneInv_reachable (s : App) : reachable s -> sceneInv s.
Proof.
  induction 1 as [|remote|s e _ IH _].
  - apply sceneInv_initial.
  - apply sceneInv_loadData.
  - now apply sceneInv_dispatch.
Qed.

(** ** One selection group at a time *)

Lemma plain_filters (cs : list Object3D) :
  Forall plain cs ->
  filter (isNamed PLANET_GROUP) (flat_map objects cs) = []
  /\ filter isPlanet (flat_map objects cs) = [].
Proof.
  intros H. apply Forall_flat_map in H.
  induction H as [|x l [Hn Hb] _ [IH1 IH2]]; simpl; [split; reflexivity|].
  unfold isNamed, isPlanet in *. apply String.eqb_neq in Hn.
  now rewrite Hn, Hb.
Qed.

Lemma root_filters (sc : Object3D) :
  name sc <> PLANET_GROUP /\ ud_book (userData sc) = None ->
  filter (isNamed PLANET_GROUP) (objects sc)
  = filter (isNamed PLANET_GROUP) (flat_map objects (children sc))
  /\ filter isPlanet (objects sc)
     = filter isPlanet (flat_map objects (children sc)).
Proof.
  intros [Hn Hb]. rewrite objects_root. simpl. unfold isNamed at 1, isPlanet at 1.
  apply String.eqb_neq in Hn. now rewrite Hn, Hb.
Qed.

Lemma planetLike_objects (ps : list Object3D) :
  Forall planetLike ps ->
  filter (isNamed PLANET_GROUP) (flat_map objects ps) = [].
Proof.
  induction 1 as [|p ps (Hn & Hc & _) _ IH]; simpl; [reflexivity|].
  rewrite objects_root, Hc. simpl. unfold isNamed at 1. now rewrite Hn.
Qed.

(** Under the invariant the selection groups of the scene are the
    groups after the plain children: none or one; the search finds it
    and its removal leaves the plain children. *)
Lemma Inv_facts (sc : Object3D) (wg : option nat) (n : nat) :
  Inv sc wg n ->
  exists base panel,
    children sc = base ++ panel
    /\ Forall plain base
    /\ (panel = [] \/ exists g, panel = [g] /\ isPanel g)
    /\ filter (isNamed PLANET_GROUP) (objects sc) = panel
    /\ getObjectByName PLANET_GROUP sc = hd_error panel
    /\ sceneWithoutPanel sc = set_children sc base
    /\ NoDup (id sc :: flat_map objectIds base ++ flat_map objectIds panel)
    /\ Forall (fun i => i < n)
              (id sc :: flat_map objectIds base ++ flat_map objectIds panel).
Proof.
  intros (Hroot & (base & panel & Hcs & Hbase & Hpanel & _) & Hnd & Hlt).
  exists base, panel.
  destruct (withoutPanel_base _ _ _ (proj1 Hroot) Hcs Hbase Hpanel Hnd)
    as [Hget Hwo].
  rewrite objectIds_root, Hcs, flat_map_app in Hnd, Hlt.
  repeat split; try assumption.
  destruct (root_filters sc Hroot) as [-> _]. rewrite Hcs.
  rewrite flat_map_app, filter_app.
  destruct (plain_filters base Hbase) as [-> _]. simpl.
  destruct Hpanel as [->|(g & -> & Hn & _ & Hps)]; [reflexivity|].
  simpl. rewrite app_nil_r, objects_root. simpl.
  unfold isNamed at 1. rewrite Hn, String.eqb_refl.
  now rewrite planetLike_objects.
Qed.

(** The scene that [showPlanetaryPanel] leaves: the new group is the
    only selection group, and the planets are those of its books. *)
Lemma panel_scene (sc : Object3D) (base : list Object3D) (n : nat)
    (tl : TimelineData) (wd : WordData) (p : Position) :
  name sc <> PLANET_GROUP /\ ud_book (userData sc) = None ->
  Forall plain base ->
  let sc' := add (set_children sc base) (panelGroup n tl wd p) in
  filter (isNamed PLANET_GROUP) (objects sc') = [panelGroup n tl wd p]
  /\ map (fun o => ud_book (userData o)) (filter isPlanet (objects sc'))
     = map Some (panelBooks tl wd).
Proof.
  intros Hroot Hbase sc'. subst sc'.
  destruct (root_filters (add (set_children sc base) (panelGroup n tl wd p))
              Hroot) as [-> ->].
  cbn [add set_children children].
  rewrite flat_map_app, !filter_app.
  destruct (plain_filters base Hbase) as [-> ->]. simpl.
  rewrite !app_nil_r, planetsFrom_objects. split.
  - now rewrite planetsFrom_names.
  - apply planetsFrom_books.
Qed.

(** C8. In every state the page reaches, the scene holds at most one
    selection group. Opening a selection first takes the previous group
    out of the scene, which then holds no selection group and no planet,
    and then adds the new group: after selecting word A and then word B
    the only group is B's, the planets in the scene are those of B's
    filtered books, and no object of A's group is in the scene any more. *)
Theorem at_most_one_selection_group (s : App) :
  reachable s ->
  length (planetGroups s) <= 1
  /\ forall wordA posA wordB posB,
       let sA := exec (showPlanetaryPanel (Some wordA) posA) s in
       let sB := exec (showPlanetaryPanel (Some wordB) posB) sA in
       let groupB := panelGroup (nextId sA) (timelineData sA) wordB posB in
       scene sB = add (sceneWithoutPanel (scene sA)) groupB
       /\ filter (isNamed PLANET_GROUP) (objects (sceneWithoutPanel (scene sA)))
          = []
       /\ filter isPlanet (objects (sceneWithoutPanel (scene sA))) = []
       /\ planetGroups sB = [groupB]
       /\ map (fun o => ud_book (userData o)) (planets sB)
          = map Some (panelBooks (timelineData s) wordB)
       /\ forall g o,
            In g (planetGroups sA) -> In o (objects g) ->
            ~ In (id o) (objectIds (scene sB)).
Proof.
  intros Hreach. apply sceneInv_reachable in Hreach as HInv. split.
  - destruct (Inv_facts _ _ _ HInv) as (base & panel & _ & _ & Hp & E & _).
    unfold planetGroups. rewrite E.
    destruct Hp as [->|(g & -> & _)]; simpl; lia.
  - intros wordA posA wordB posB sA sB groupB.
    assert (sceneInv sA) as HA by now apply sceneInv_showPlanetaryPanel.
    assert (timelineData sA = timelineData s) as Htl
        by apply keeps_showPlanetaryPanel.
    assert (scene sB = add (sceneWithoutPanel (scene sA)) groupB) as EB.
    { subst sB groupB. unfold exec. now rewrite showPlanetaryPanel_Some. }
    pose proof HA as (Hroot & _).
    destruct (Inv_facts _ _ _ HA)
      as (base & panel & Hcs & Hbase & Hpanel & EA & _ & Hwo & Hnd & Hlt).
    destruct (root_filters (set_children (scene sA) base) Hroot) as [Hf1 Hf2].
    destruct (plain_filters base Hbase) as [Hp1 Hp2].
    destruct (panel_scene (scene sA) base (nextId sA) (timelineData sA)
                wordB posB Hroot Hbase) as [Hg Hb].
    unfold planetGroups, planets. rewrite EB, Hwo.
    repeat split.
    + now rewrite Hf1.
    + now rewrite Hf2.
    + exact Hg.
    + rewrite <- Htl. exact Hb.
    + intros g o Hg' Ho Hin. rewrite EA in Hg'.
      apply In_objects_ids in Ho.
      assert (In (id o) (flat_map objectIds panel)) as Hop
          by (apply in_flat_map; eauto).
      assert (id o < nextId sA) as Hlt_o.
      { rewrite Forall_forall in Hlt. apply Hlt. right.
        apply in_or_app. now right. }
      rewrite objectIds_root in Hin. cbn [add set_children children id] in Hin.
      rewrite flat_map_app in Hin. subst groupB.
      cbn [flat_map] in Hin. rewrite app_nil_r, panelGroup_ids in Hin.
      inversion Hnd as [|? ? Hni Hnd']; subst.
      destruct Hin as [Hin|Hin].
      * apply Hni. rewrite Hin. apply in_or_app. now right.
      * apply in_app_or in Hin as [Hin|Hin].
        -- exact (NoDup_app_disjoint _ _ _ Hnd' Hin Hop).
        -- apply in_seq in Hin. lia.
Qed.

Lemma pageSelected_reachable : reachable pageSelected.
Proof. apply reachable_event; [apply reachable_load|exact I]. Qed.

Lemma at_most_one_selection_group_witness :
  length (planetGroups pageSelected) <= 1
  /\ map (fun o => ud_book (userData o))
         (planets (exec (showPlanetaryPanel
                           (Some {| text := lit "art"; frequency := 2;
                                    wd_books := [bookDickens; bookDickens] |})
                           Origin)
                        (exec (showPlanetaryPanel
                                 (Some {| text := lit "history"; frequency := 1;
                                          wd_books := [bookAnonymous] |})
                                 Origin)
                              pageSelected)))
     = [Some bookDickens; Some bookDickens].
Proof.
  destruct (at_most_one_selection_group pageSelected pageSelected_reachable)
    as [Hone Hswitch].
  split; [exact Hone|].
  destruct (Hswitch {| text := lit "history"; frequency := 1;
                       wd_books := [bookAnonymous] |} Origin
                    {| text := lit "art"; frequency := 2;
                       wd_books := [bookDickens; bookDickens] |} Origin)
    as (_ & _ & _ & _ & Hbooks & _).
  exact Hbooks.
Defined.

(** ** A timeline change while a selection is open *)

Lemma outcome_bind_modify {A} (f : App -> App) (k : M A) (s : App) :
  outcome (modify f ;; k) s = outcome k (f s).
Proof. reflexivity. Qed.

(** With a selection open, the last part of [updateTimeline] takes the
    first child of the selection group for the selected word's mesh. That
    child is a planet, or missing when the group is empty, so the refresh
    always throws. *)
Lemma updateTimeline_throws_when_open (s : App) :
  sceneInv s -> planetGroups s <> [] ->
  exists e, outcome updateTimeline s = Throw e.
Proof.
  intros HInv Hopen. unfold outcome. rewrite updateTimeline_run. cbv zeta.
  unfold sceneInv in HInv.
  destruct (wordGroup s) as [gid|] eqn:Hwg; [|simpl; eauto].
  destruct (Inv_visibility _ gid _
              (timelineData (set_timelineData (swapped (timelineData s)) s))
              HInv) as [_ Hsame].
  cbv zeta in Hsame.
  destruct (snd (updateVisibility _ _)); [|simpl; eauto].
  cbn [scene set_scene]. rewrite Hsame.
  destruct (Inv_facts _ _ _ HInv)
    as (base & panel & _ & _ & Hpanel & E & Hget & _).
  unfold planetGroups in Hopen. rewrite E in Hopen. rewrite Hget.
  destruct Hpanel as [->|(g & -> & _ & _ & Hps)]; [congruence|].
  simpl hd_error. cbv iota.
  destruct (children g) as [|wm rest]; simpl; [eauto|].
  inversion Hps as [|? ? (_ & _ & Hwd) _]; subst. rewrite Hwd.
  rewrite showPlanetaryPanel_None. simpl. eauto.
Qed.

Lemma slider_change_throws_when_open (s : App) (v : Z) :
  reachable s -> planetGroups s <> [] ->
  (exists e, outcome (handle (StartYearChanged v)) s = Throw e)
  /\ (exists e, outcome (handle (EndYearChanged v)) s = Throw e).
Proof.
  intros Hreach Hopen. apply sceneInv_reachable in Hreach.
  split; simpl; unfold onChangeStartYear, onChangeEndYear;
    rewrite outcome_bind_modify;
    apply updateTimeline_throws_when_open; assumption.
Qed.

(** C2, at failing inputs. On the page with "history" selected (two
    planets), moving the end slider to 2000 throws in
    [showPlanetaryPanel], which received [undefined] for the word: the
    old group is gone and no new one was added. On the page with an
    empty selection open, moving the end slider to 2010 throws on the
    missing first child; nothing is recomputed. *)
Theorem timeline_change_fails_with_open_selection :
  map (fun g => length (children g)) (planetGroups pageSelected) = [2]
  /\ outcome (handle (EndYearChanged 2000)) pageSelected
     = Throw (TypeError "wordData is undefined")
  /\ planetGroups (dispatch (EndYearChanged 2000) pageSelected) = []
  /\ map (fun g => length (children g)) (planetGroups pageEmptySelection) = [0]
  /\ outcome (handle (EndYearChanged 2010)) pageEmptySelection
     = Throw (TypeError "wordMesh is undefined")
  /\ map (fun g => length (children g))
         (planetGroups (dispatch (EndYearChanged 2010) pageEmptySelection))
     = [0].
Proof. repeat split; vm_compute; reflexivity. Qed.

(* ===================================================================== *)
(** * Part III: further properties of the code *)
(* ===================================================================== *)

(** ** Normal forms of words *)

Lemma isLower_not_upper (c : codeUnit) : isLower c = true -> isUpper c = false.
Proof.
  unfold isLower, isUpper. intros H. apply andb_true_iff in H as [H1 H2].
  apply N.leb_le in H1. apply andb_false_iff. right. apply N.leb_gt. lia.
Qed.

Lemma normalize_fixed (w : jsstring) :
  Forall (fun c => isLower c = true) w -> normalize w = w.
Proof.
  unfold normalize, toLowerCase, replaceNonAlpha.
  induction 1 as [|c w Hc Hw IH]; simpl; [reflexivity|].
  assert (isAlpha c = true) as -> by (unfold isAlpha; now rewrite Hc).
  simpl. rewrite IH.
  unfold lowerUnit. now rewrite (isLower_not_upper c Hc).
Qed.

Lemma splitOn_no_separator (isSep : codeUnit -> bool) (s : jsstring) :
  Forall (fun c => isSep c = false) s -> splitOn isSep s = [s].
Proof.
  induction 1 as [|c s Hc Hs IH]; simpl; [reflexivity|].
  now rewrite Hc, IH.
Qed.

Lemma isLower_not_space (c : codeUnit) : isLower c = true -> isSpace c = false.
Proof.
  unfold isLower, isSpace, SPACE. intros H. apply andb_true_iff in H as [H1 _].
  apply N.leb_le in H1. apply N.eqb_neq. lia.
Qed.

Lemma tokens_In (subject t : jsstring) :
  In t (tokens subject) -> t <> [] /\ Forall (fun c => isLower c = true) t.
Proof.
  unfold tokens. intros H. apply filter_In in H as [H Ht].
  apply in_map_iff in H as (piece & <- & _). split.
  - now apply truthyStr_true.
  - apply normalize_lower.
Qed.

(** X1. Normalising is idempotent, and a word that came out of the
    tokenizer is a fixed point of it: tokenizing the word again gives
    just that word. *)
Theorem normalize_idempotent :
  (forall w, normalize (normalize w) = normalize w)
  /\ (forall subject t, In t (tokens subject) -> tokens t = [t]).
Proof.
  split.
  - intros w. apply normalize_fixed, normalize_lower.
  - intros subject t Ht. apply tokens_In in Ht as [Hne Hlow].
    unfold tokens, split_space. rewrite splitOn_no_separator.
    + simpl. rewrite (normalize_fixed t Hlow).
      apply truthyStr_true in Hne. now rewrite Hne.
    + eapply Forall_impl; [|exact Hlow]. apply isLower_not_space.
Qed.

Lemma normalize_idempotent_witness :
  tokens (lit "history") = [lit "history"].
Proof.
  apply (proj2 normalize_idempotent (lit "Science fiction -- History")).
  vm_compute. auto.
Defined.

(** ** The index as a whole *)

Lemma Map_has_keys (k : jsstring) (m : WordMap) :
  Map_has k m = existsb (str_eqb k) (map fst m).
Proof.
  unfold Map_has. induction m as [|[k' v] m IH]; simpl; [reflexivity|].
  destruct (str_eqb k k'); [reflexivity|exact IH].
Qed.

Lemma Map_set_keys (k : jsstring) (v : MapEntry) (m : WordMap) :
  map fst (Map_set k v m)
  = if Map_has k m then map fst m else map fst m ++ [k].
Proof.
  unfold Map_has. induction m as [|[k' v'] m IH]; simpl; [reflexivity|].
  destruct (str_eqb k k'); simpl; [reflexivity|].
  rewrite IH. now destruct (Map_get k m).
Qed.

Lemma Map_set_total (k : jsstring) (v e : MapEntry) (m : WordMap) :
  Map_get k m = Some e ->
  totalCount (Map_set k v m) + count e = totalCount m + count v.
Proof.
  unfold totalCount. induction m as [|[k' v'] m IH]; simpl; [discriminate|].
  destruct (str_eqb k k'); simpl.
  - intros [= ->]. lia.
  - intros H. specialize (IH H). lia.
Qed.

Lemma Map_set_total_new (k : jsstring) (v : MapEntry) (m : WordMap) :
  Map_get k m = None ->
  totalCount (Map_set k v m) = totalCount m + count v.
Proof.
  unfold totalCount. induction m as [|[k' v'] m IH]; simpl; [lia|].
  destruct (str_eqb k k'); simpl; [discriminate|].
  intros H. specialize (IH H). lia.
Qed.

(** Keys and total after one piece. *)
Lemma indexWord_keys_total (book : Book) (m m' : WordMap) (piece : jsstring) :
  normalize piece <> [] ->
  indexWord book m piece = Ok m' ->
  map fst m' = (if Map_has (normalize piece) m then map fst m
                else map fst m ++ [normalize piece])
  /\ totalCount m' = totalCount m + 1.
Proof.
  intros Hne. unfold indexWord. set (w := normalize piece) in *.
  apply truthyStr_true in Hne. rewrite Hne.
  unfold getEntry, Map_has.
  destruct (Map_get w m) as [e|] eqn:Hget; simpl.
  - rewrite Hget. simpl. rewrite Map_get_set_same. simpl. intros [= <-].
    rewrite Map_set_set, Map_set_keys. unfold Map_has. rewrite Hget.
    split; [reflexivity|].
    pose proof (Map_set_total w {| count := count e + 1;
                                   books := books e ++ [book] |} e m Hget).
    simpl in *. lia.
  - rewrite Map_get_set_same. simpl. rewrite Map_get_set_same. simpl.
    intros [= <-]. rewrite !Map_set_set, Map_set_keys. unfold Map_has.
    rewrite Hget. split; [reflexivity|].
    now rewrite Map_set_total_new.
Qed.

Lemma firstOccurrences_In (ws : list jsstring) (w : jsstring) :
  In w (firstOccurrences ws) <-> In w ws.
Proof.
  induction ws as [|x ws IH]; simpl; [tauto|].
  rewrite filter_In, IH, negb_true_iff, str_eqb_neq.
  destruct (list_eq_dec N.eq_dec x w) as [->|Hne]; [tauto|].
  split; [tauto|]. intros [H|H]; [tauto|]. right. split; [exact H|congruence].
Qed.

Lemma firstOccurrences_NoDup (ws : list jsstring) : NoDup (firstOccurrences ws).
Proof.
  induction ws as [|x ws IH]; simpl; constructor.
  - rewrite filter_In, negb_true_iff, str_eqb_neq. tauto.
  - now apply NoDup_filter.
Qed.

Lemma existsb_str (t : jsstring) (ws : list jsstring) :
  existsb (str_eqb t) ws = true <-> In t ws.
Proof.
  rewrite existsb_exists. split.
  - intros (x & Hx & E). apply str_eqb_eq in E. now subst.
  - intros H. exists t. split; [exact H|apply str_eqb_refl].
Qed.

Lemma firstOccurrences_snoc (ws : list jsstring) (t : jsstring) :
  firstOccurrences (ws ++ [t])
  = if existsb (str_eqb t) ws then firstOccurrences ws
    else firstOccurrences ws ++ [t].
Proof.
  induction ws as [|w ws IH]; simpl; [reflexivity|].
  rewrite IH. destruct (str_eqb t w) eqn:E; simpl.
  - apply str_eqb_eq in E. subst w.
    destruct (existsb (str_eqb t) ws); [reflexivity|].
    rewrite filter_app. simpl. rewrite str_eqb_refl. simpl.
    now rewrite app_nil_r.
  - destruct (existsb (str_eqb t) ws); [reflexivity|].
    rewrite filter_app. simpl. now rewrite E.
Qed.

Lemma existsb_firstOccurrences (t : jsstring) (ws : list jsstring) :
  existsb (str_eqb t) (firstOccurrences ws) = existsb (str_eqb t) ws.
Proof.
  apply eq_true_iff_eq. now rewrite !existsb_str, firstOccurrences_In.
Qed.

Lemma indexWord_indexes (book : Book) (piece : jsstring) (m : WordMap)
    (occ : list (jsstring * Book)) :
  indexes m occ ->
  exists m',
    indexWord book m piece = Ok m'
    /\ indexes m' (occ ++ tagged book (filter truthyStr [normalize piece])).
Proof.
  intros (Hrep & Hkeys & Htot).
  destruct (indexWord_represents book piece m occ Hrep) as (m' & Hok & Hrep').
  exists m'. split; [exact Hok|]. split; [exact Hrep'|].
  simpl in *. destruct (truthyStr (normalize piece)) eqn:Ht.
  - apply truthyStr_true in Ht.
    destruct (indexWord_keys_total book m m' piece Ht Hok) as [Hk Hn].
    simpl. rewrite map_app, length_app. simpl.
    rewrite firstOccurrences_snoc, Hk, Hn, Htot.
    rewrite Map_has_keys, Hkeys, existsb_firstOccurrences.
    split; [|reflexivity].
    now destruct (existsb (str_eqb (normalize piece)) (map fst occ)).
  - assert (normalize piece = []) as E
        by (destruct (normalize piece); [reflexivity|discriminate]).
    rewrite (indexWord_skip book m piece E) in Hok. injection Hok as <-.
    simpl. now rewrite app_nil_r.
Qed.

Lemma forEachR_track {A} (R : WordMap -> list (jsstring * Book) -> Prop)
    (f : WordMap -> A -> result WordMap)
    (g : A -> list (jsstring * Book)) (xs : list A) :
  (forall x m occ, In x xs -> R m occ ->
     exists m', f m x = Ok m' /\ R m' (occ ++ g x)) ->
  forall m occ, R m occ ->
    exists m', forEachR f xs m = Ok m' /\ R m' (occ ++ flat_map g xs).
Proof.
  induction xs as [|x xs IH]; intros Hf m occ Hm; simpl.
  - exists m. split; [reflexivity|]. now rewrite app_nil_r.
  - destruct (Hf x m occ (or_introl eq_refl) Hm) as (m1 & E1 & H1).
    rewrite E1. simpl.
    destruct (IH (fun y m0 occ0 Hy => Hf y m0 occ0 (or_intror Hy)) m1 _ H1)
      as (m' & E' & H').
    exists m'. split; [exact E'|]. now rewrite app_assoc.
Qed.

Lemma indexBook_indexes (book : Book) (m : WordMap)
    (occ : list (jsstring * Book)) :
  subjects book <> None ->
  indexes m occ ->
  exists m',
    indexBook m book = Ok m'
    /\ indexes m' (occ ++ tagged book (bookTokens book)).
Proof.
  intros Hs Hm. unfold indexBook, bookTokens.
  destruct (subjects book) as [subjs|]; [|congruence].
  rewrite <- tagged_flat_map.
  apply (forEachR_track indexes); [|exact Hm].
  intros subject m0 occ0 _ H0. unfold indexSubject, tokens.
  rewrite <- tokens_flat_map, <- tagged_flat_map.
  apply (forEachR_track indexes); [|exact H0].
  intros piece m1 occ1 _. apply indexWord_indexes.
Qed.

(** Indexing succeeds exactly when every book has a subjects list. *)
Lemma buildWordMap_Ok (allBooks : list Book) :
  forall m0,
    (exists m, forEachR indexBook allBooks m0 = Ok m)
    -> Forall (fun b => subjects b <> None) allBooks.
Proof.
  induction allBooks as [|b bs IH]; intros m0 [m Hm]; [constructor|].
  simpl in Hm. destruct (indexBook m0 b) as [m1|e] eqn:E; [|discriminate].
  constructor.
  - unfold indexBook in E. destruct (subjects b); [discriminate|discriminate E].
  - apply (IH m1). eauto.
Qed.

Lemma indexBooks_indexes (allBooks : list Book) (wds : list WordData) :
  indexBooks allBooks = Ok wds ->
  exists m, wds = toWordsData m /\ indexes m (occurrences allBooks).
Proof.
  unfold indexBooks. intros H.
  destruct (buildWordMap allBooks) as [m|e] eqn:E; [|discriminate].
  injection H as <-. exists m. split; [reflexivity|].
  assert (Forall (fun b => subjects b <> None) allBooks) as Hall
      by (apply (buildWordMap_Ok allBooks []); eauto).
  assert (indexes [] []) as H0 by (repeat split; intros w; reflexivity).
  destruct (forEachR_track indexes indexBook
              (fun b => tagged b (bookTokens b)) allBooks) with (m := @nil (jsstring * MapEntry)) (occ := @nil (jsstring * Book))
    as (m' & E' & H').
  - intros b m1 occ Hb. apply indexBook_indexes.
    rewrite Forall_forall in Hall. now apply Hall.
  - exact H0.
  - unfold buildWordMap in E. rewrite E in E'. injection E' as <-. exact H'.
Qed.

Lemma forEachR_total {A Acc} (f : Acc -> A -> result Acc) (xs : list A) :
  (forall s x, exists s', f s x = Ok s') ->
  forall s, exists s', forEachR f xs s = Ok s'.
Proof.
  intros Hf. induction xs as [|x xs IH]; intros s; simpl; [eauto|].
  destruct (Hf s x) as [s1 ->]. simpl. apply IH.
Qed.

Lemma indexWord_total (book : Book) (m : WordMap) (piece : jsstring) :
  exists m', indexWord book m piece = Ok m'.
Proof.
  destruct (normalize piece) as [|c w] eqn:E.
  - exists m. now apply indexWord_skip.
  - destruct (indexWord_spec book m piece) as (m' & H & _); [congruence|eauto].
Qed.

Lemma indexBook_throws (m : WordMap) (book : Book) (e : jsError) :
  indexBook m book = Throw e ->
  e = TypeError "subjects is undefined" /\ subjects book = None.
Proof.
  unfold indexBook. destruct (subjects book) as [subjs|]; [|now intros [= <-]].
  intros H. exfalso.
  destruct (forEachR_total (indexSubject book) subjs) with (s := m) as [m' E].
  - intros s subject. unfold indexSubject. apply forEachR_total.
    intros s' piece. apply indexWord_total.
  - congruence.
Qed.

Lemma buildWordMap_throws (allBooks : list Book) :
  forall m0 e,
    forEachR indexBook allBooks m0 = Throw e ->
    e = TypeError "subjects is undefined".
Proof.
  induction allBooks as [|b bs IH]; intros m0 e; simpl; [discriminate|].
  destruct (indexBook m0 b) as [m1|e1] eqn:E; simpl.
  - apply IH.
  - intros [= <-]. now apply indexBook_throws in E.
Qed.

(** X2. The indexing pass produces a word list exactly when every
    fetched book has a subjects list; otherwise it ends with the
    TypeError of [subjects.forEach] on [undefined], and with no other
    error. *)
Theorem indexing_succeeds_iff_subjects_present (allBooks : list Book) :
  ((exists wds, indexBooks allBooks = Ok wds)
   <-> Forall (fun b => subjects b <> None) allBooks)
  /\ (forall e, indexBooks allBooks = Throw e ->
                e = TypeError "subjects is undefined").
Proof.
  split; [split|].
  - intros [wds H]. unfold indexBooks, buildWordMap in H.
    destruct (forEachR indexBook allBooks []) as [m|e] eqn:E; [|discriminate].
    apply (buildWordMap_Ok allBooks []). eauto.
  - intros H. destruct (buildWordMap_represents allBooks H) as (m & E & _).
    exists (toWordsData m). unfold indexBooks. now rewrite E.
  - intros e. unfold indexBooks, buildWordMap.
    destruct (forEachR indexBook allBooks []) as [m|e'] eqn:E; [discriminate|].
    simpl. intros [= <-]. now apply buildWordMap_throws in E.
Qed.

Lemma indexing_succeeds_iff_subjects_present_witness :
  (exists wds, indexBooks [bookDickens; bookNoSubjectList] = Ok wds)
  /\ indexBooks [bookDickens; bookNoSubjectsField]
     = Throw (TypeError "subjects is undefined").
Proof.
  split.
  - apply (proj2 (proj1 (indexing_succeeds_iff_subjects_present
                           [bookDickens; bookNoSubjectList]))).
    repeat constructor; discriminate.
  - destruct (indexBooks [bookDickens; bookNoSubjectsField]) as [wds|e] eqn:E.
    + discriminate E.
    + f_equal.
      exact (proj2 (indexing_succeeds_iff_subjects_present
                      [bookDickens; bookNoSubjectsField]) e E).
Defined.

Lemma toWordsData_text (m : WordMap) : map text (toWordsData m) = map fst m.
Proof.
  unfold toWordsData. rewrite map_map. apply map_ext. now intros [k e].
Qed.

Lemma toWordsData_frequency (m : WordMap) :
  list_sum (map frequency (toWordsData m)) = totalCount m.
Proof.
  unfold toWordsData, totalCount. rewrite map_map. f_equal.
  apply map_ext. now intros [k e].
Qed.

Lemma Map_get_In (k : jsstring) (e : MapEntry) (m : WordMap) :
  NoDup (map fst m) -> In (k, e) m -> Map_get k m = Some e.
Proof.
  induction m as [|[k' v] m IH]; simpl; [tauto|].
  intros Hnd [H|H]; inversion Hnd as [|? ? Hni Hnd']; subst.
  - injection H as -> ->. now rewrite str_eqb_refl.
  - destruct (str_eqb k k') eqn:E; [|now apply IH].
    apply str_eqb_eq in E. subst k'. exfalso. apply Hni.
    apply in_map_iff. now exists (k, e).
Qed.

Lemma Map_get_Some_In (k : jsstring) (e : MapEntry) (m : WordMap) :
  Map_get k m = Some e -> In (k, e) m.
Proof.
  induction m as [|[k' v] m IH]; simpl; [discriminate|].
  destruct (str_eqb k k') eqn:E.
  - apply str_eqb_eq in E. subst k'. intros [= ->]. now left.
  - intros H. right. now apply IH.
Qed.

Lemma occurrences_In (allBooks : list Book) (t : jsstring) (b : Book) :
  In (t, b) (occurrences allBooks) <-> In b allBooks /\ In t (bookTokens b).
Proof.
  unfold occurrences, tagged. rewrite in_flat_map. split.
  - intros (b' & Hb' & H). apply in_map_iff in H as (t' & [= <- <-] & Ht).
    now split.
  - intros [Hb Ht]. exists b. split; [exact Hb|].
    apply in_map_iff. now exists t.
Qed.

Lemma contributors_In (w : jsstring) (b : Book) (occ : list (jsstring * Book)) :
  In b (contributors w occ) <-> In (w, b) occ.
Proof.
  unfold contributors. rewrite in_map_iff. split.
  - intros ([t b'] & <- & H). apply filter_In in H as [H E].
    simpl in E. apply str_eqb_eq in E. now subst.
  - intros H. exists (w, b). split; [reflexivity|].
    apply filter_In. split; [exact H|apply str_eqb_refl].
Qed.

(** The entry of a word of the list is the one its occurrences call for,
    and every word that occurs has its element in the list. *)
Lemma word_entry (allBooks : list Book) (wds : list WordData) :
  indexBooks allBooks = Ok wds ->
  (forall wd, In wd wds ->
     expectedEntry (text wd) (occurrences allBooks)
     = Some {| count := frequency wd; books := wd_books wd |})
  /\ (forall w e, expectedEntry w (occurrences allBooks) = Some e ->
        exists wd, In wd wds /\ text wd = w /\ frequency wd = count e
                   /\ wd_books wd = books e).
Proof.
  intros H. destruct (indexBooks_indexes allBooks wds H)
    as (m & -> & Hrep & Hkeys & _).
  assert (NoDup (map fst m)) as Hnd
      by (rewrite Hkeys; apply firstOccurrences_NoDup).
  split.
  - intros wd Hwd. unfold toWordsData in Hwd.
    apply in_map_iff in Hwd as ([k e] & <- & Hin). simpl.
    rewrite <- Hrep, (Map_get_In k e m Hnd Hin). now destruct e.
  - intros w e He. rewrite <- Hrep in He. apply Map_get_Some_In in He.
    exists {| text := w; frequency := count e; wd_books := books e |}.
    repeat split. unfold toWordsData. apply in_map_iff. now exists (w, e).
Qed.

Lemma expectedEntry_Some (w : jsstring) (e : MapEntry)
    (occ : list (jsstring * Book)) :
  expectedEntry w occ = Some e ->
  books e = contributors w occ /\ count e = length (contributors w occ)
  /\ contributors w occ <> [].
Proof.
  unfold expectedEntry. destruct (contributors w occ) as [|b bs]; [discriminate|].
  intros [= <-]. repeat split. discriminate.
Qed.

(** X3. The words of the index are pairwise distinct and stand in the
    order in which they first occur while the books, their subjects and
    the pieces of each subject are visited; nothing is sorted. *)
Theorem words_in_order_of_first_occurrence (allBooks : list Book)
    (wds : list WordData) :
  indexBooks allBooks = Ok wds ->
  map text wds = firstOccurrences (map fst (occurrences allBooks))
  /\ NoDup (map text wds).
Proof.
  intros H. destruct (indexBooks_indexes allBooks wds H)
    as (m & -> & _ & Hkeys & _).
  rewrite toWordsData_text, Hkeys. split; [reflexivity|].
  apply firstOccurrences_NoDup.
Qed.

Lemma words_in_order_of_first_occurrence_witness :
  exists wds,
    indexBooks [bookDickens; bookAnonymous] = Ok wds
    /\ map text wds
       = [lit "science"; lit "fiction"; lit "history"; lit "art"].
Proof.
  eexists. split; [reflexivity|].
  destruct (words_in_order_of_first_occurrence
              [bookDickens; bookAnonymous] _ eq_refl) as [E _].
  rewrite E. reflexivity.
Defined.

(** X4. Every word of the index is a non-empty string of the letters
    a..z, occurs at least once, and lists at least one book. *)
Theorem index_words_well_formed (allBooks : list Book) (wds : list WordData) :
  indexBooks allBooks = Ok wds ->
  Forall (fun wd =>
            text wd <> []
            /\ Forall (fun c => isLower c = true) (text wd)
            /\ 1 <= frequency wd
            /\ wd_books wd <> []) wds.
Proof.
  intros H. apply Forall_forall. intros wd Hwd.
  destruct (word_entry allBooks wds H) as [Hentry _].
  apply Hentry, expectedEntry_Some in Hwd as (Hb & Hc & Hne). simpl in *.
  destruct (contributors (text wd) (occurrences allBooks)) as [|b bs] eqn:E;
    [congruence|].
  assert (In b (contributors (text wd) (occurrences allBooks))) as Hin
      by (rewrite E; now left).
  apply contributors_In, occurrences_In in Hin as [_ Ht].
  unfold bookTokens in Ht. destruct (subjects b) as [subjs|]; [|contradiction].
  apply in_flat_map in Ht as (subject & _ & Ht). apply tokens_In in Ht as [H1 H2].
  rewrite Hb, Hc. repeat split; try assumption; simpl; try lia; discriminate.
Qed.

Lemma index_words_well_formed_witness :
  exists wds,
    indexBooks [bookDickens; bookAnonymous] = Ok wds
    /\ Forall (fun wd => 1 <= frequency wd) wds.
Proof.
  eexists. split; [reflexivity|].
  eapply Forall_impl;
    [|exact (index_words_well_formed [bookDickens; bookAnonymous] _ eq_refl)].
  intros wd (_ & _ & Hf & _). exact Hf.
Defined.

(** X5. The index is the inverted relation between books and words: a
    book is listed under a word exactly when it is one of the fetched
    books and the word is among the tokens of its subjects. *)
Theorem index_is_inverted_relation (allBooks : list Book)
    (wds : list WordData) :
  indexBooks allBooks = Ok wds ->
  forall w b,
    (exists wd, In wd wds /\ text wd = w /\ In b (wd_books wd))
    <-> (In b allBooks /\ In w (bookTokens b)).
Proof.
  intros H w b. destruct (word_entry allBooks wds H) as [Hentry Hword].
  rewrite <- occurrences_In, <- contributors_In. split.
  - intros (wd & Hwd & <- & Hb).
    apply Hentry, expectedEntry_Some in Hwd as (E & _). simpl in E. now rewrite <- E.
  - intros Hb.
    destruct (expectedEntry w (occurrences allBooks)) as [e|] eqn:E.
    + destruct (Hword w e E) as (wd & Hwd & Ht & _ & Hbs).
      exists wd. repeat split; try assumption.
      apply expectedEntry_Some in E as (E & _). now rewrite Hbs, E.
    + unfold expectedEntry in E.
      destruct (contributors w (occurrences allBooks)); [contradiction|discriminate].
Qed.

Lemma index_is_inverted_relation_witness :
  exists wds,
    indexBooks [bookDickens; bookAnonymous] = Ok wds
    /\ exists wd, In wd wds /\ text wd = lit "history"
                  /\ In bookAnonymous (wd_books wd).
Proof.
  eexists. split; [reflexivity|].
  apply (proj2 (index_is_inverted_relation [bookDickens; bookAnonymous] _
                  eq_refl (lit "history") bookAnonymous)).
  split; [right; now left|now left].
Defined.

(** X6. The frequencies of the index add up to the number of tokens in
    all subjects of all books: every surviving token is counted once. *)
Theorem frequencies_add_up (allBooks : list Book) (wds : list WordData) :
  indexBooks allBooks = Ok wds ->
  list_sum (map frequency wds) = length (flat_map bookTokens allBooks).
Proof.
  intros H. destruct (indexBooks_indexes allBooks wds H)
    as (m & -> & _ & _ & Htot).
  rewrite toWordsData_frequency, Htot. unfold occurrences, tagged.
  induction allBooks as [|b bs IH]; simpl; [reflexivity|].
  rewrite !length_app, length_map. f_equal.
  clear. induction bs as [|b bs IH]; simpl; [reflexivity|].
  now rewrite !length_app, length_map, IH.
Qed.

Lemma frequencies_add_up_witness :
  exists wds,
    indexBooks [bookDickens; bookAnonymous] = Ok wds
    /\ list_sum (map frequency wds) = 6.
Proof.
  eexists. split; [reflexivity|].
  rewrite (frequencies_add_up [bookDickens; bookAnonymous] _ eq_refl).
  reflexivity.
Defined.

(** ** What the fetch loop returns *)

Lemma fetchLoop_result (remote : Remote) (allBooks : list Book)
    (nextPage : option jsstring) (pageCount : nat) (requests : list jsstring) :
  snd (fetchLoop remote allBooks nextPage pageCount requests)
  = resultWithin remote (3 - pageCount) pageCount nextPage allBooks.
Proof.
  funelim (fetchLoop remote allBooks nextPage pageCount requests); cbn [snd].
  - replace (3 - pageCount) with 0 by lia. reflexivity.
  - destruct (3 - pageCount); cbn [resultWithin]; [reflexivity|].
    match goal with E : truthyUrl _ = None |- _ => now rewrite E end.
  - match goal with IH : snd _ = _ |- _ => rewrite IH end.
    replace (3 - pageCount) with (S (3 - S pageCount)) by lia.
    cbn [resultWithin].
    repeat match goal with E : _ = Some _ |- _ => rewrite E; clear E end.
    reflexivity.
  - replace (3 - pageCount) with (S (3 - S pageCount)) by lia.
    cbn [resultWithin].
    repeat match goal with E : _ = _ :> option _ |- _ => rewrite E; clear E end.
    reflexivity.
Qed.

Lemma resultWithin_spec (remote : Remote) (budget : nat) :
  forall k cursor acc,
    match resultWithin remote budget k cursor acc with
    | Ok books =>
        exists pages,
          responsesTo remote k (requestsWithin remote budget k cursor)
          = map Some pages
          /\ books = acc ++ flat_map results pages
    | Throw e =>
        exists pages u,
          responsesTo remote k (requestsWithin remote budget k cursor)
          = map Some pages ++ [None]
          /\ requestsWithin remote budget k cursor
             = firstn (length pages) (requestsWithin remote budget k cursor)
               ++ [u]
          /\ e = FetchError u
    end.
Proof.
  induction budget as [|b IH]; intros k cursor acc; simpl.
  - exists []. simpl. now rewrite app_nil_r.
  - destruct (truthyUrl cursor) as [url|]; simpl.
    2: { exists []. simpl. now rewrite app_nil_r. }
    destruct (remote k url) as [data|] eqn:Hd; simpl.
    + specialize (IH (S k) (next data) (acc ++ results data)).
      destruct (resultWithin remote b (S k) (next data) (acc ++ results data))
        as [books|e].
      * destruct IH as (pages & Hr & ->). exists (data :: pages). simpl.
        rewrite Hr, <- app_assoc. auto.
      * destruct IH as (pages & u & Hr & Hu & ->).
        exists (data :: pages), u. simpl. rewrite Hr, <- Hu. auto.
    + exists [], url. simpl. auto.
Qed.

(** X7. When the fetch loop returns, every request it made was answered
    and the books are those of the answered pages, in the order of the
    requests. When it throws, the last request is the one that failed,
    the requests before it were answered, and nothing is requested after
    it: there is no retry. *)
Theorem fetched_books_are_the_pages (remote : Remote) :
  let urls := fst (fetchBooks remote) in
  match snd (fetchBooks remote) with
  | Ok books =>
      exists pages,
        responsesTo remote 0 urls = map Some pages
        /\ books = flat_map results pages
  | Throw e =>
      exists pages u,
        responsesTo remote 0 urls = map Some pages ++ [None]
        /\ urls = firstn (length pages) urls ++ [u]
        /\ e = FetchError u
  end.
Proof.
  unfold fetchBooks. rewrite fetchLoop_requests, fetchLoop_result.
  rewrite app_nil_l. change (3 - 0) with 3.
  exact (resultWithin_spec remote 3 0 (Some CATALOG_URL) []).
Qed.

(** ** Loading *)

(** X8. [loadData] never throws. When a fetch fails or a record has no
    subjects, it only notes the requests made and logs the error: the
    scene, the words, the word group, the range and the sliders stay as
    they were, so the page remains without word cloud and timeline. *)
Theorem failed_load_changes_nothing (remote : Remote) (s : App) :
  outcome (loadData remote) s = Ok tt
  /\ forall e,
       rbind (snd (fetchBooks remote)) indexBooks = Throw e ->
       exec (loadData remote) s
       = set_console (console s ++ [e])
           (set_network (network s ++ fst (fetchBooks remote)) s).
Proof.
  unfold outcome, exec. rewrite loadData_run. cbv zeta.
  destruct (rbind (snd (fetchBooks remote)) indexBooks) as [wds|e'].
  - split; [reflexivity|discriminate].
  - split; [reflexivity|]. now intros e [= <-].
Qed.

Lemma failed_load_changes_nothing_witness :
  scene (exec (loadData remoteMalformed) initialApp) = scene initialApp
  /\ gui (exec (loadData remoteMalformed) initialApp) = false.
Proof.
  rewrite (proj2 (failed_load_changes_nothing remoteMalformed initialApp)
             (TypeError "subjects is undefined") eq_refl).
  split; reflexivity.
Defined.

Lemma wordMeshesFrom_nth (total : nat) (wds : list WordData) :
  forall firstId index i wd,
    nth_error wds i = Some wd ->
    nth_error (wordMeshesFrom firstId index total wds) i
    = Some (mkObject3D (firstId + 2 * i) ""
              {| ud_wordData := Some wd; ud_book := None |} true
              (SphericalCoords 800 (index + i) total)
              [mkObject3D (S (firstId + 2 * i)) INTERACTION_SPHERE
                 emptyUserData true Origin []]).
Proof.
  induction wds as [|w wds IH]; intros firstId index [|i] wd;
    cbn [nth_error wordMeshesFrom]; try discriminate.
  - intros [= ->]. now rewrite Nat.mul_0_r, !Nat.add_0_r.
  - intros H. rewrite (IH _ _ _ _ H).
    replace (S (S firstId) + 2 * i) with (firstId + 2 * S i) by lia.
    replace (S index + i) with (index + S i) by lia.
    reflexivity.
Qed.

Lemma wordMeshesFrom_length (total : nat) (wds : list WordData) :
  forall firstId index,
    length (wordMeshesFrom firstId index total wds) = length wds.
Proof.
  induction wds as [|w wds IH]; intros firstId index; simpl; [reflexivity|].
  now rewrite IH.
Qed.

(** X9. After a successful load of the initial page the word cloud has
    one mesh per word of the index, in the order of the index: the i-th
    mesh carries the i-th word, is placed by [positionOnSphere] with
    index i of the number of words, is visible, and has the interaction
    sphere as its only child. The sliders exist and the range is still
    1800..2023. *)
Theorem loaded_cloud_follows_index (remote : Remote) (wds : list WordData) :
  rbind (snd (fetchBooks remote)) indexBooks = Ok wds ->
  let s := exec (loadData remote) initialApp in
  wordsData s = wds
  /\ gui s = true
  /\ timelineData s = fullRange
  /\ length (wordMeshes s) = length wds
  /\ forall i wd,
       nth_error wds i = Some wd ->
       exists mesh,
         nth_error (wordMeshes s) i = Some mesh
         /\ ud_wordData (userData mesh) = Some wd
         /\ position mesh = SphericalCoords 800 i (length wds)
         /\ visible mesh = true
         /\ map name (children mesh) = [INTERACTION_SPHERE].
Proof.
  intros H s. subst s. unfold exec. rewrite loadData_run. cbv zeta.
  rewrite H. unfold wordMeshes. cbn.
  repeat split.
  - apply wordMeshesFrom_length.
  - intros i wd Hi. rewrite (wordMeshesFrom_nth _ _ 4 0 i wd Hi).
    eexists. split; [reflexivity|]. repeat split.
Qed.

Lemma loaded_cloud_follows_index_witness :
  map (fun m => position m) (wordMeshes pageLoaded)
  = [SphericalCoords 800 0 4; SphericalCoords 800 1 4;
     SphericalCoords 800 2 4; SphericalCoords 800 3 4]
  /\ length (wordMeshes pageLoaded) = 4.
Proof.
  destruct (loaded_cloud_follows_index remoteTwoPages _ eq_refl)
    as (_ & _ & _ & Hlen & _).
  split; [reflexivity|exact Hlen].
Defined.

(** ** The year filter *)

Lemma filter_sublist {A} (p q : A -> bool) (l : list A) :
  (forall x, p x = true -> q x = true) ->
  sublist (filter p l) (filter q l).
Proof.
  intros Hpq. induction l as [|x l IH]; simpl; [constructor|].
  destruct (p x) eqn:Hp.
  - rewrite (Hpq x Hp). now constructor.
  - destruct (q x); [now constructor|exact IH].
Qed.

Lemma sublist_filter {A} (p : A -> bool) (l : list A) : sublist (filter p l) l.
Proof.
  induction l as [|x l IH]; simpl; [constructor|].
  destruct (p x); now constructor.
Qed.

Lemma sublist_length {A} (l1 l2 : list A) :
  sublist l1 l2 -> length l1 <= length l2.
Proof. induction 1; simpl; lia. Qed.

Lemma inTimeline_narrower (tl' tl : TimelineData) (b : Book) :
  narrower tl' tl -> inTimeline tl' b = true -> inTimeline tl b = true.
Proof.
  unfold narrower, inTimeline. rewrite !andb_true_iff, !Z.leb_le. lia.
Qed.

(** X10. The satellites of a word are books of the word, in the word's
    order and with its repetitions, some left out. A narrower year range
    leaves out more: its satellites are among those of the wider range,
    and a word visible under the narrower range is visible under the
    wider one. *)
Theorem narrower_range_shows_less (tl' tl : TimelineData) (wd : WordData) :
  narrower tl' tl ->
  sublist (panelBooks tl' wd) (panelBooks tl wd)
  /\ sublist (panelBooks tl wd) (wd_books wd)
  /\ length (panelBooks tl' wd) <= length (panelBooks tl wd)
  /\ (wordVisible tl' wd = true -> wordVisible tl wd = true).
Proof.
  intros Hn.
  assert (sublist (panelBooks tl' wd) (panelBooks tl wd)) as Hs
      by (apply filter_sublist; intros b; now apply inTimeline_narrower).
  pose proof (sublist_length _ _ Hs) as Hl.
  repeat split; try assumption.
  - apply sublist_filter.
  - unfold wordVisible, panelBooks in *. rewrite !Nat.ltb_lt. lia.
Qed.

Lemma narrower_range_shows_less_witness :
  sublist
    (panelBooks {| startYear := 1900; endYear := 2000 |}
       {| text := lit "history"; frequency := 2;
          wd_books := [bookDickens; bookAnonymous] |})
    (panelBooks fullRange
       {| text := lit "history"; frequency := 2;
          wd_books := [bookDickens; bookAnonymous] |}).
Proof.
  apply (narrower_range_shows_less {| startYear := 1900; endYear := 2000 |}
           fullRange).
  unfold narrower. simpl. lia.
Defined.

(** X11. The tooltip and the filter agree on the year of a book: a year
    shown in the tooltip is the year the filter uses and is not 0; a book
    whose tooltip says "Unknown" is filtered as of 1900. A book without
    authors is such a book: its author line says "Unknown" too, and it
    is a satellite exactly when 1900 lies in the range. *)
Theorem tooltip_year_is_filter_year (b : Book) :
  (forall y, tooltipYear b = YearNumber y -> filterYear b = y /\ y <> 0%Z)
  /\ (tooltipYear b = YearUnknown -> filterYear b = 1900%Z)
  /\ (authors b = [] ->
      tooltipYear b = YearUnknown
      /\ authorsText b = UNKNOWN
      /\ forall tl,
           inTimeline tl b
           = ((startYear tl <=? 1900)%Z && (1900 <=? endYear tl)%Z)).
Proof.
  unfold tooltipYear, filterYear, inTimeline, filterYear. repeat split.
  - destruct (authorYear b); congruence.
  - unfold authorYear, truthyNum in H.
    destruct (deathYearOf (firstAuthor b)) as [d|];
      destruct (birthYearOf (firstAuthor b)) as [c|];
      repeat match goal with
             | H : context [(?z =? 0)%Z] |- _ =>
                 destruct (Z.eqb_spec z 0)
             end; try discriminate; injection H as <-; assumption.
  - destruct (authorYear b); [discriminate|reflexivity].
  - unfold authorYear, firstAuthor. now rewrite H.
  - unfold authorsText. now rewrite H.
  - unfold authorYear, firstAuthor. now rewrite H.
Qed.

Lemma tooltip_year_is_filter_year_witness :
  filterYear bookDickens = 1870%Z
  /\ filterYear bookAnonymous = 1900%Z
  /\ authorsText bookAnonymous = UNKNOWN.
Proof.
  destruct (tooltip_year_is_filter_year bookDickens) as (Hy & _ & _).
  destruct (tooltip_year_is_filter_year bookAnonymous) as (_ & Hu & Ha).
  split; [apply (Hy 1870%Z eq_refl)|].
  split; [apply Hu; reflexivity|].
  apply (Ha eq_refl).
Defined.

(** ** The range in the states the page reaches *)

Lemma keeps_onClick (hit : option nat) : keepsTimeline (onClick hit).
Proof.
  unfold onClick. repeat (apply keeps_showPlanetaryPanel || keeps_step).
Qed.

Lemma loadData_timeline (remote : Remote) (s : App) :
  timelineData (exec (loadData remote) s) = timelineData s.
Proof.
  unfold exec. rewrite loadData_run. cbv zeta.
  now destruct (rbind (snd (fetchBooks remote)) indexBooks).
Qed.

Lemma swapped_in_range (tl : TimelineData) :
  inSliderRange (startYear tl) -> inSliderRange (endYear tl) ->
  inSliderRange (startYear (swapped tl)) /\ inSliderRange (endYear (swapped tl)).
Proof.
  unfold swapped. destruct (startYear tl >? endYear tl)%Z; simpl; tauto.
Qed.

(** X12. In every state the page reaches, both bounds of the range are
    years of the sliders, 1800..2023, and start <= end. So a book whose
    year lies outside 1800..2023, such as one of an ancient author, is
    never among the satellites of a word. *)
Theorem range_stays_within_sliders (s : App) :
  reachable s ->
  inSliderRange (startYear (timelineData s))
  /\ inSliderRange (endYear (timelineData s))
  /\ ordered (timelineData s)
  /\ forall wd b,
       In b (panelBooks (timelineData s) wd) ->
       (1800 <= filterYear b <= 2023)%Z.
Proof.
  intros Hreach.
  assert (inSliderRange (startYear (timelineData s))
          /\ inSliderRange (endYear (timelineData s))
          /\ ordered (timelineData s)) as (H1 & H2 & H3).
  { induction Hreach as [|remote|s e _ IH Hen].
    - unfold inSliderRange, ordered. simpl. lia.
    - rewrite loadData_timeline. unfold inSliderRange, ordered. simpl. lia.
    - destruct IH as (I1 & I2 & I3). unfold dispatch.
      destruct e as [hit|v|v]; cbn [handle].
      + rewrite keeps_onClick. auto.
      + destruct Hen as [_ Hv].
        unfold onChangeStartYear. rewrite exec_bind. cbn [modify].
        rewrite updateTimeline_timeline. cbn [timelineData set_timelineData].
        split; [|split]; [| |apply swapped_ordered];
          apply swapped_in_range; simpl; assumption.
      + destruct Hen as [_ Hv].
        unfold onChangeEndYear. rewrite exec_bind. cbn [modify].
        rewrite updateTimeline_timeline. cbn [timelineData set_timelineData].
        split; [|split]; [| |apply swapped_ordered];
          apply swapped_in_range; simpl; assumption. }
  split; [exact H1|]. split; [exact H2|]. split; [exact H3|].
  intros wd b H. apply panelBooks_In in H as [_ Hy].
  unfold inSliderRange, ordered in *. lia.
Qed.

Lemma range_stays_within_sliders_witness :
  ordered (timelineData pageSelected)
  /\ inSliderRange (endYear (timelineData pageSelected)).
Proof.
  destruct (range_stays_within_sliders pageSelected pageSelected_reachable)
    as (_ & H2 & H3 & _).
  split; assumption.
Defined.

(** ** The word cloud in the states the page reaches *)

(** Under the scene invariant the object that [wordGroup] refers to is
    one of the plain children, and it is found there whatever follows
    the plain children. *)
Lemma word_group_found (sc : Object3D) (base panel : list Object3D)
    (gid : nat) :
  children sc = base ++ panel ->
  In gid (map id base) ->
  NoDup (objectIds sc) ->
  exists c,
    id c = gid
    /\ getObjectById gid sc = Some c
    /\ (forall panel',
          getObjectById gid (set_children sc (base ++ panel')) = Some c)
    /\ (forall ms,
          getObjectById gid
            (modifyById gid (fun g => set_children g ms) sc)
          = Some (set_children c ms)).
Proof.
  destruct sc as [i n u v p cs]. simpl. intros -> Hgid Hnd.
  apply in_map_iff in Hgid as (c & <- & Hc).
  apply in_split in Hc as (b1 & b2 & ->).
  rewrite <- app_assoc in *. simpl in *.
  destruct (only_child_with_id _ _ _ _ Hnd) as [Hi Hothers].
  pose proof Hothers as Hothers'.
  apply Forall_app in Hothers as [H1 _].
  apply Nat.eqb_neq in Hi. rewrite Hi.
  exists c. split; [reflexivity|]. split; [now apply find_child_at|].
  split.
  - intros panel'. rewrite <- app_assoc. simpl. now apply find_child_at.
  - intros ms. rewrite modify_child_at by exact Hothers'.
    cbn [getObjectById]. rewrite Hi.
    apply (find_child_at b1 (b2 ++ panel) (set_children c ms)). exact H1.
Qed.

Lemma Inv_word_group (sc : Object3D) (gid n : nat) :
  Inv sc (Some gid) n ->
  exists base c,
    sceneWithoutPanel sc = set_children sc base
    /\ getObjectById gid sc = Some c
    /\ (forall panel',
          getObjectById gid (set_children sc (base ++ panel')) = Some c)
    /\ (forall ms,
          getObjectById gid
            (modifyById gid (fun g => set_children g ms) sc)
          = Some (set_children c ms)).
Proof.
  intros (Hroot & (base & panel & Hcs & Hbase & Hpanel & Hwg) & Hnd & _).
  destruct (withoutPanel_base _ _ _ (proj1 Hroot) Hcs Hbase Hpanel Hnd)
    as [_ Hwo].
  destruct (word_group_found sc base panel gid Hcs (Hwg gid eq_refl) Hnd)
    as (c & _ & H1 & H2 & H3).
  exists base, c. auto.
Qed.

(** [showPlanetaryPanel] leaves the words, the word group and its meshes
    alone. *)
Lemma showPlanetaryPanel_cloud (wordData : option WordData) (p : Position)
    (s : App) :
  sceneInv s ->
  let s' := exec (showPlanetaryPanel wordData p) s in
  wordsData s' = wordsData s /\ wordGroup s' = wordGroup s
  /\ gui s' = gui s /\ wordMeshes s' = wordMeshes s.
Proof.
  intros HInv s'. subst s'. unfold exec, wordMeshes, sceneInv in *.
  destruct wordData as [wd|];
    [rewrite showPlanetaryPanel_Some|rewrite showPlanetaryPanel_None];
    cbn [snd wordsData wordGroup gui scene set_scene set_nextId];
    repeat split;
    (destruct (wordGroup s) as [gid|]; [|reflexivity]);
    destruct (Inv_word_group _ _ _ HInv) as (base & c & Hwo & H1 & H2 & _);
    rewrite Hwo, H1.
  - change (add (set_children (scene s) base)
              (panelGroup (nextId s) (timelineData s) wd p))
      with (set_children (scene s)
              (base ++ [panelGroup (nextId s) (timelineData s) wd p])).
    now rewrite H2.
  - specialize (H2 []). rewrite app_nil_r in H2. now rewrite H2.
Qed.

(** The visibility pass on meshes that all carry a word. *)
Lemma updateVisibility_cloud (tl : TimelineData) (meshes : list Object3D)
    (wds : list WordData) :
  map (fun m => ud_wordData (userData m)) meshes = map Some wds ->
  snd (updateVisibility tl meshes) = Ok tt
  /\ map visible (fst (updateVisibility tl meshes)) = map (wordVisible tl) wds
  /\ map (fun m => ud_wordData (userData m)) (fst (updateVisibility tl meshes))
     = map Some wds
  /\ map position (fst (updateVisibility tl meshes)) = map position meshes.
Proof.
  revert wds. induction meshes as [|m ms IH]; intros [|wd wds]; simpl;
    try discriminate; [auto|].
  intros [= Hm Hms]. rewrite Hm. specialize (IH wds Hms).
  destruct (updateVisibility tl ms) as [ms' r]. simpl in *.
  destruct IH as (-> & -> & -> & ->). rewrite Hm. auto.
Qed.

(** [updateTimeline] on a page with a word cloud. *)
Lemma updateTimeline_cloud (s : App) :
  sceneInv s -> cloudInv s ->
  let s' := exec updateTimeline s in
  wordsData s' = wordsData s /\ wordGroup s' = wordGroup s
  /\ gui s' = gui s
  /\ wordMeshes s'
     = fst (updateVisibility (swapped (timelineData s)) (wordMeshes s)).
Proof.
  intros HInv (Hdata & _ & _) s'. subst s'. unfold exec.
  rewrite updateTimeline_run. cbv zeta. unfold sceneInv in HInv.
  unfold wordMeshes in *.
  destruct (wordGroup s) as [gid|] eqn:Hwg.
  2: { cbn. rewrite Hwg. auto. }
  destruct (Inv_word_group _ _ _ HInv) as (base & c & _ & H1 & _ & H3).
  destruct (Inv_visibility _ gid _
              (timelineData (set_timelineData (swapped (timelineData s)) s))
              HInv) as [HInv2 _].
  cbv zeta in HInv2. rewrite H1 in *.
  cbn [timelineData set_timelineData] in *.
  set (vis := updateVisibility (swapped (timelineData s)) (children c)) in *.
  set (s2 := set_scene _ _).
  assert (sceneInv s2) as H2
      by (unfold sceneInv; subst s2; simpl; rewrite Hwg; exact HInv2).
  assert (wordsData s2 = wordsData s /\ wordGroup s2 = Some gid
          /\ gui s2 = gui s
          /\ match getObjectById gid (scene s2) with
             | Some group => children group
             | None => []
             end = fst vis) as Hs2.
  { subst s2. cbn. rewrite Hwg, H3. auto. }
  destruct (snd vis);
    [|cbn [snd]; destruct Hs2 as (A & B & C & D); rewrite B; auto].
  destruct (getObjectByName PLANET_GROUP (scene s2)) as [pg|];
    [|cbn [snd]; destruct Hs2 as (A & B & C & D); rewrite B; auto].
  destruct (nth_error (children pg) 0) as [wm|];
    [|cbn [snd]; destruct Hs2 as (A & B & C & D); rewrite B; auto].
  destruct (showPlanetaryPanel_cloud (ud_wordData (userData wm)) (position wm)
              s2 H2) as (E1 & E2 & E3 & E4).
  destruct Hs2 as (A & B & C & D).
  unfold exec, wordMeshes in E1, E2, E3, E4.
  rewrite E2, B in E4. cbv beta iota in E4. rewrite D in E4.
  rewrite E1, E2, E3, A, B, C. cbv beta iota. auto.
Qed.

Lemma wordMeshesFrom_data (total : nat) (wds : list WordData) :
  forall firstId index,
    map (fun m => ud_wordData (userData m))
        (wordMeshesFrom firstId index total wds)
    = map Some wds
    /\ map position (wordMeshesFrom firstId index total wds)
       = map (fun i => SphericalCoords 800 i total) (seq index (length wds))
    /\ map visible (wordMeshesFrom firstId index total wds)
       = map (fun _ => true) wds.
Proof.
  induction wds as [|wd wds IH]; intros firstId index; simpl; [auto|].
  destruct (IH (S (S firstId)) (S index)) as (-> & -> & ->). auto.
Qed.

Lemma cloudInv_updateTimeline (s : App) :
  sceneInv s -> cloudInv s -> cloudInv (exec updateTimeline s).
Proof.
  intros HInv Hc.
  destruct (updateTimeline_cloud s HInv Hc) as (E1 & E2 & E3 & E4).
  destruct Hc as (Hdata & Hpos & Hgui).
  destruct (updateVisibility_cloud (swapped (timelineData s)) _ _ Hdata)
    as (_ & _ & Hd & Hp).
  unfold cloudInv. rewrite E1, E2, E3, E4, Hd, Hp. auto.
Qed.

Lemma cloudInv_reachable (s : App) : reachable s -> cloudInv s.
Proof.
  intros Hreach. induction Hreach as [|remote|s e Hs IH _].
  - repeat split. discriminate.
  - unfold exec. rewrite loadData_run. cbv zeta.
    destruct (rbind (snd (fetchBooks remote)) indexBooks) as [wds|err].
    + unfold cloudInv, wordMeshes. cbn.
      destruct (wordMeshesFrom_data (length wds) wds 4 0) as (-> & -> & _).
      repeat split. discriminate.
    + repeat split. discriminate.
  - apply sceneInv_reachable in Hs as HInv. unfold dispatch.
    destruct e as [hit|v|v]; cbn [handle].
    + unfold exec, onClick. unfold bind at 1. cbn [gets].
      destruct (wordGroup s) as [gid|] eqn:Hwg; [|exact IH].
      unfold bind at 1. cbn [gets].
      destruct hit as [i|]; [|destruct (getObjectById gid (scene s)); exact IH].
      destruct (getObjectById gid (scene s)) as [group|]; [|exact IH].
      destruct (nth_error (children group) i) as [mesh|]; [|exact IH].
      destruct (ud_wordData (userData mesh)) as [wd|]; [|exact IH].
      destruct (showPlanetaryPanel_cloud (Some wd) (position mesh) s HInv)
        as (E1 & E2 & E3 & E4).
      unfold exec in *. unfold cloudInv. rewrite E1, E2, E3, E4. exact IH.
    + unfold onChangeStartYear. rewrite exec_bind. cbn [modify].
      apply cloudInv_updateTimeline; assumption.
    + unfold onChangeEndYear. rewrite exec_bind. cbn [modify].
      apply cloudInv_updateTimeline; assumption.
Qed.

Lemma wordVisible_iff (tl : TimelineData) (wd : WordData) :
  wordVisible tl wd = true
  <-> exists b, In b (wd_books wd)
                /\ (startYear tl <= filterYear b <= endYear tl)%Z.
Proof.
  unfold wordVisible. rewrite Nat.ltb_lt. split.
  - intros H. destruct (filter (inTimeline tl) (wd_books wd)) as [|b l] eqn:E;
      [simpl in H; lia|].
    exists b. apply (panelBooks_In tl wd b). unfold panelBooks. rewrite E.
    now left.
  - intros (b & Hb). apply (panelBooks_In tl wd b) in Hb.
    unfold panelBooks in Hb.
    destruct (filter (inTimeline tl) (wd_books wd)); [contradiction|simpl; lia].
Qed.

(** X13. After every change of a slider, in every state the page
    reaches, each word mesh is visible exactly when at least one book of
    its word has its year in the new range; this holds also when the
    refresh of an open selection throws afterwards. The words and the
    positions of the meshes do not change. *)
Theorem visibility_follows_range (s : App) (e : Event) :
  reachable s ->
  (exists v, e = StartYearChanged v \/ e = EndYearChanged v) ->
  let s' := dispatch e s in
  wordsData s' = wordsData s
  /\ map visible (wordMeshes s')
     = map (wordVisible (timelineData s')) (wordsData s)
  /\ map position (wordMeshes s') = map position (wordMeshes s)
  /\ forall wd,
       wordVisible (timelineData s') wd = true
       <-> exists b, In b (wd_books wd)
                     /\ (startYear (timelineData s') <= filterYear b
                         <= endYear (timelineData s'))%Z.
Proof.
  intros Hreach (v & He) s'.
  apply sceneInv_reachable in Hreach as HInv.
  apply cloudInv_reachable in Hreach as Hc.
  assert (exists s0, s' = exec updateTimeline s0
                     /\ sceneInv s0 /\ cloudInv s0
                     /\ wordsData s0 = wordsData s
                     /\ wordMeshes s0 = wordMeshes s)
    as (s0 & -> & HInv0 & Hc0 & Hw0 & Hm0).
  { subst s'. unfold dispatch.
    destruct He as [->| ->]; cbn [handle];
      unfold onChangeStartYear, onChangeEndYear; rewrite exec_bind;
      cbn [modify]; eexists; (split; [reflexivity|]);
      (split; [exact HInv|]); (split; [exact Hc|]); split; reflexivity. }
  destruct (updateTimeline_cloud s0 HInv0 Hc0) as (E1 & _ & _ & E4).
  destruct Hc0 as (Hdata & _ & _).
  destruct (updateVisibility_cloud (swapped (timelineData s0)) _ _ Hdata)
    as (_ & Hv & _ & Hp).
  rewrite E1, E4, Hv, Hp, updateTimeline_timeline, Hw0, Hm0.
  repeat split; try apply wordVisible_iff.
Qed.

Lemma visibility_follows_range_witness :
  map visible (wordMeshes (dispatch (StartYearChanged 1900) pageLoaded))
  = [false; false; true; false].
Proof.
  assert (reachable pageLoaded) as H by apply reachable_load.
  destruct (visibility_follows_range pageLoaded (StartYearChanged 1900) H)
    as (_ & Hv & _).
  - exists 1900%Z. now left.
  - rewrite Hv. reflexivity.
Defined.

(** ** A slider change with no selection open *)

Lemma no_panel_not_found (sc : Object3D) (wg : option nat) (n : nat) :
  Inv sc wg n ->
  (filter (isNamed PLANET_GROUP) (objects sc) = []
   <-> getObjectByName PLANET_GROUP sc = None).
Proof.
  intros HInv.
  destruct (Inv_facts _ _ _ HInv) as (base & panel & _ & _ & Hp & -> & -> & _).
  destruct Hp as [->|(g & -> & _)]; simpl; split; congruence.
Qed.

Lemma updateTimeline_without_selection (s : App) :
  sceneInv s -> cloudInv s -> wordGroup s <> None -> planetGroups s = [] ->
  outcome updateTimeline s = Ok tt
  /\ planetGroups (exec updateTimeline s) = [].
Proof.
  intros HInv (Hdata & _ & _) Hwg Hnone.
  unfold outcome, exec. rewrite updateTimeline_run. cbv zeta.
  unfold sceneInv in HInv. unfold wordMeshes in Hdata.
  destruct (wordGroup s) as [gid|] eqn:Ewg; [|congruence].
  destruct (Inv_visibility _ gid _
              (timelineData (set_timelineData (swapped (timelineData s)) s))
              HInv) as [HInv2 Hsame].
  cbv zeta in HInv2, Hsame.
  destruct (updateVisibility_cloud
              (timelineData (set_timelineData (swapped (timelineData s)) s))
              _ _ Hdata) as (-> & _).
  cbn [scene set_scene]. rewrite Hsame.
  apply (no_panel_not_found _ _ _ HInv) in Hnone as Hget. rewrite Hget.
  cbn [fst snd]. split; [reflexivity|].
  unfold planetGroups. cbn [scene set_scene].
  apply (no_panel_not_found _ _ _ HInv2). now rewrite Hsame.
Qed.

(** X14. As long as no selection is open, a change of either slider on
    the loaded page returns normally and leaves the scene without a
    selection group. *)
Theorem slider_change_without_selection (s : App) (v : Z) :
  reachable s -> gui s = true -> planetGroups s = [] ->
  (outcome (handle (StartYearChanged v)) s = Ok tt
   /\ planetGroups (dispatch (StartYearChanged v) s) = [])
  /\ (outcome (handle (EndYearChanged v)) s = Ok tt
      /\ planetGroups (dispatch (EndYearChanged v) s) = []).
Proof.
  intros Hreach Hgui Hnone.
  apply sceneInv_reachable in Hreach as HInv.
  apply cloudInv_reachable in Hreach as Hc.
  pose proof (proj2 (proj2 Hc) Hgui) as Hwg.
  unfold dispatch. cbn [handle]. unfold onChangeStartYear, onChangeEndYear.
  rewrite !outcome_bind_modify, !exec_bind. cbn [modify].
  split; apply updateTimeline_without_selection; assumption.
Qed.

Lemma slider_change_without_selection_witness :
  outcome (handle (StartYearChanged 1900)) pageLoaded = Ok tt
  /\ planetGroups (dispatch (StartYearChanged 1900) pageLoaded) = [].
Proof.
  apply (slider_change_without_selection pageLoaded 1900).
  - apply reachable_load.
  - reflexivity.
  - reflexivity.
Defined.

(** ** Clicking a word *)

Lemma nth_error_maps {A B C} (f : A -> C) (g : B -> C) (l : list A)
    (l' : list B) (i : nat) (y : B) :
  map f l = map g l' -> nth_error l' i = Some y ->
  exists x, nth_error l i = Some x /\ f x = g y.
Proof.
  revert l' i. induction l as [|x l IH]; intros [|y' l'] i; simpl;
    try discriminate.
  - destruct i; discriminate.
  - intros [= Hxy Hl]. destruct i as [|i]; simpl.
    + intros [= ->]. eauto.
    + now apply IH.
Qed.

Lemma planetsFrom_nth (total : nat) (center : Position) (bks : list Book) :
  forall firstId index i b,
    nth_error bks i = Some b ->
    nth_error (planetsFrom firstId index total center bks) i
    = Some (mkObject3D (firstId + i) ""
              {| ud_wordData := None; ud_book := Some b |} true
              (Orbit center 150 (index + i) total) []).
Proof.
  induction bks as [|b0 bks IH]; intros firstId index [|i] b;
    cbn [nth_error planetsFrom]; try discriminate.
  - intros [= ->]. now rewrite !Nat.add_0_r.
  - intros H. rewrite (IH _ _ _ _ H).
    replace (S firstId + i) with (firstId + S i) by lia.
    replace (S index + i) with (index + S i) by lia.
    reflexivity.
Qed.

Lemma planetsFrom_length (total : nat) (center : Position) (bks : list Book) :
  forall firstId index,
    length (planetsFrom firstId index total center bks) = length bks.
Proof.
  induction bks as [|b bks IH]; intros firstId index; simpl; [reflexivity|].
  now rewrite IH.
Qed.

(** The state after [showPlanetaryPanel] for a word, under the scene
    invariant. *)
Lemma showPlanetaryPanel_opened (wd : WordData) (center : Position) (s : App) :
  sceneInv s ->
  let s' := exec (showPlanetaryPanel (Some wd) center) s in
  outcome (showPlanetaryPanel (Some wd) center) s = Ok tt
  /\ planetGroups s' = [panelGroup (nextId s) (timelineData s) wd center]
  /\ map (fun o => ud_book (userData o)) (planets s')
     = map Some (panelBooks (timelineData s) wd).
Proof.
  intros HInv s'. subst s'. unfold outcome, exec, planetGroups, planets.
  rewrite showPlanetaryPanel_Some. cbn [fst snd scene set_scene].
  pose proof HInv as (Hroot & _).
  destruct (Inv_facts _ _ _ HInv) as (base & panel & _ & Hbase & _ & _ & _
                                      & Hwo & _).
  rewrite Hwo.
  destruct (panel_scene (scene s) base (nextId s) (timelineData s) wd center
              Hroot Hbase) as [Hg Hb].
  auto.
Qed.

(** X15. A selection always opens: for any word and centre,
    [showPlanetaryPanel] returns normally on every state the page
    reaches and leaves exactly one selection group. Its planets are the
    books of the word whose year is in the range, in the word's order;
    the i-th of N planets is placed by [positionPlanet] with index i and
    total N around the centre. With no book in range the group is empty. *)
Theorem selection_layout (s : App) (wd : WordData) (center : Position) :
  reachable s ->
  let s' := exec (showPlanetaryPanel (Some wd) center) s in
  let shown := panelBooks (timelineData s) wd in
  outcome (showPlanetaryPanel (Some wd) center) s = Ok tt
  /\ exists g,
       planetGroups s' = [g]
       /\ length (children g) = length shown
       /\ (forall i b,
             nth_error shown i = Some b ->
             exists planet,
               nth_error (children g) i = Some planet
               /\ ud_book (userData planet) = Some b
               /\ position planet = Orbit center 150 i (length shown))
       /\ (children g = []
           <-> forall b, In b (wd_books wd) ->
                         ~ (startYear (timelineData s) <= filterYear b
                            <= endYear (timelineData s))%Z).
Proof.
  intros Hreach s' shown. apply sceneInv_reachable in Hreach as HInv.
  destruct (showPlanetaryPanel_opened wd center s HInv) as (Hok & Hg & _).
  split; [exact Hok|]. eexists. split; [exact Hg|].
  unfold panelGroup. cbn [children]. fold shown. split; [|split].
  - apply planetsFrom_length.
  - intros i b Hi. rewrite (planetsFrom_nth _ _ _ _ 0 i b Hi).
    eexists. split; [reflexivity|]. split; reflexivity.
  - split.
    + intros Hnil b Hb Hy.
      assert (In b shown) as Hin by (apply panelBooks_In; now split).
      destruct shown; [contradiction|discriminate].
    + intros Hall. destruct shown as [|b l] eqn:E; [reflexivity|].
      exfalso. assert (In b (panelBooks (timelineData s) wd)) as Hin
          by (fold shown; rewrite E; now left).
      apply panelBooks_In in Hin as [Hb Hy]. exact (Hall b Hb Hy).
Qed.

Lemma selection_layout_witness :
  exists g,
    planetGroups
      (exec (showPlanetaryPanel
               (Some {| text := lit "history"; frequency := 2;
                        wd_books := [bookDickens; bookAnonymous] |})
               Origin) pageLoaded) = [g]
    /\ length (children g) = 2.
Proof.
  destruct (selection_layout pageLoaded
              {| text := lit "history"; frequency := 2;
                 wd_books := [bookDickens; bookAnonymous] |} Origin)
    as (_ & g & Hg & Hlen & _).
  - apply reachable_load.
  - exists g. split; [exact Hg|exact Hlen].
Defined.

(** X16. On every state the page reaches after the words are loaded, a
    click that hits the i-th word mesh opens the selection of the i-th
    word of the index: the handler returns normally, the one selection
    group is the group of that word, centred at the mesh's position on
    the sphere, and the planets are the word's books with their year in
    the range. A click that hits nothing leaves the page as it is. *)
Theorem click_selects_the_word (s : App) (i : nat) (wd : WordData) :
  reachable s -> gui s = true ->
  nth_error (wordsData s) i = Some wd ->
  let s' := dispatch (Click (Some i)) s in
  outcome (handle (Click (Some i))) s = Ok tt
  /\ planetGroups s'
     = [panelGroup (nextId s) (timelineData s) wd
          (SphericalCoords 800 i (length (wordsData s)))]
  /\ map (fun o => ud_book (userData o)) (planets s')
     = map Some (panelBooks (timelineData s) wd)
  /\ dispatch (Click None) s = s.
Proof.
  intros Hreach Hgui Hi s'. subst s'.
  apply sceneInv_reachable in Hreach as HInv.
  apply cloudInv_reachable in Hreach as (Hdata & Hpos & Hwg).
  specialize (Hwg Hgui). unfold wordMeshes in *.
  destruct (wordGroup s) as [gid|] eqn:Ewg; [|congruence].
  destruct (nth_error_maps _ _ _ _ i wd Hdata Hi) as (mesh & Hm & Hwd).
  assert (position mesh = SphericalCoords 800 i (length (wordsData s))) as Hp.
  { assert (nth_error (map position
                         match getObjectById gid (scene s) with
                         | Some group => children group
                         | None => []
                         end) i = Some (position mesh)) as H
        by now apply map_nth_error.
    rewrite Hpos, nth_error_map in H.
    destruct (nth_error (seq 0 (length (wordsData s))) i) as [j|] eqn:Ej;
      [|discriminate].
    simpl in H. injection H as <-.
    assert (i < length (wordsData s)) as Hlt
        by (apply nth_error_Some; congruence).
    rewrite nth_error_seq in Ej.
    destruct (Nat.ltb_spec i (length (wordsData s))); [|lia].
    now injection Ej as <-. }
  assert (handle (Click (Some i)) s
          = showPlanetaryPanel (Some wd)
              (SphericalCoords 800 i (length (wordsData s))) s) as E.
  { cbn [handle]. unfold onClick. unfold bind at 1. cbn [gets]. rewrite Ewg.
    unfold bind at 1. cbn [gets].
    destruct (getObjectById gid (scene s)) as [group|];
      [|destruct i; discriminate].
    now rewrite Hm, Hwd, Hp. }
  destruct (showPlanetaryPanel_opened wd
              (SphericalCoords 800 i (length (wordsData s))) s HInv)
    as (Hok & Hg & Hb).
  unfold dispatch, outcome, exec in *. rewrite E.
  repeat split; try assumption.
  cbn [handle]. unfold onClick. unfold bind at 1. cbn [gets]. rewrite Ewg.
  unfold bind at 1. cbn [gets].
  now destruct (getObjectById gid (scene s)).
Qed.

Lemma click_selects_the_word_witness :
  map (fun o => ud_book (userData o)) (planets pageSelected)
  = [Some bookDickens; Some bookAnonymous].
Proof.
  destruct (click_selects_the_word pageLoaded 2
              {| text := lit "history"; frequency := 2;
                 wd_books := [bookDickens; bookAnonymous] |})
    as (_ & _ & Hb & _).
  - apply reachable_load.
  - reflexivity.
  - reflexivity.
  - exact Hb.
Defined.

(** ** The tooltip *)

(** X17. While the scene holds no selection group, a pointer move
    returns without touching the tooltip: it neither shows nor hides it.
    With a group in the scene, a move that hits no planet hides the
    tooltip and keeps its position and markup. *)
Theorem pointer_move_without_hit (s : App) (t : Tooltip) (x y : Z)
    (hit : option nat) :
  reachable s ->
  (planetGroups s = [] -> onMouseMove x y hit s t = (Ok tt, t))
  /\ (planetGroups s <> [] ->
      onMouseMove x y None s t = (Ok tt, hideTooltip t)
      /\ tt_display (snd (onMouseMove x y None s t)) = false
      /\ tt_content (snd (onMouseMove x y None s t)) = tt_content t).
Proof.
  intros Hreach. apply sceneInv_reachable in Hreach as HInv.
  unfold onMouseMove. split.
  - intros Hnone. apply (no_panel_not_found _ _ _ HInv) in Hnone.
    now rewrite Hnone.
  - intros Hsome.
    destruct (getObjectByName PLANET_GROUP (scene s)) as [g|] eqn:E.
    + repeat split.
    + apply (no_panel_not_found _ _ _ HInv) in E. contradiction.
Qed.

Lemma pointer_move_without_hit_witness :
  onMouseMove 10 20 (Some 0) pageLoaded tooltipAtStart
  = (Ok tt, tooltipAtStart).
Proof.
  apply (proj1 (pointer_move_without_hit pageLoaded tooltipAtStart 10 20
                  (Some 0) (reachable_load remoteTwoPages))).
  reflexivity.
Defined.




(** ** How tokenizing and indexing compose *)

Lemma splitOn_app (isSep : codeUnit -> bool) (a b : jsstring) (sep : codeUnit) :
  isSep sep = true ->
  splitOn isSep (a ++ sep :: b) = splitOn isSep a ++ splitOn isSep b.
Proof.
  intros Hsep. induction a as [|c a IH]; simpl.
  - now rewrite Hsep.
  - rewrite IH. destruct (isSep c); [reflexivity|].
    destruct (splitOn_cons isSep a) as (p & ps & ->). reflexivity.
Qed.

(** X19. The tokens of two texts joined by a space are the tokens of the
    first followed by the tokens of the second. *)
Theorem tokens_of_joined_subjects (a b : jsstring) :
  tokens (a ++ [SPACE] ++ b) = tokens a ++ tokens b.
Proof.
  unfold tokens, split_space. simpl app.
  rewrite (splitOn_app isSpace a b SPACE eq_refl).
  now rewrite map_app, filter_app.
Qed.

Lemma occurrences_Permutation (bs bs' : list Book) :
  Permutation bs bs' -> Permutation (occurrences bs) (occurrences bs').
Proof. intros H. unfold occurrences. now apply Permutation_flat_map. Qed.

Lemma contributors_Permutation (w : jsstring)
    (occ occ' : list (jsstring * Book)) :
  Permutation occ occ' ->
  Permutation (contributors w occ) (contributors w occ').
Proof.
  intros H. unfold contributors. apply Permutation_map.
  induction H as [|x l l' _ IH|x y l|l l' l'' _ IH1 _ IH2]; simpl.
  - constructor.
  - destruct (str_eqb w (fst x)); [now constructor|exact IH].
  - destruct (str_eqb w (fst x)), (str_eqb w (fst y));
      try apply Permutation_refl. constructor.
  - now transitivity (filter (fun tb => str_eqb w (fst tb)) l').
Qed.

(** X20. The order in which the books arrive changes neither which words
    the index has nor their frequencies: for a reordered catalogue every
    word is indexed with the same frequency and the same books, the
    books possibly in another order. *)
Theorem frequencies_do_not_depend_on_order (bs bs' : list Book)
    (wds wds' : list WordData) :
  Permutation bs bs' ->
  indexBooks bs = Ok wds -> indexBooks bs' = Ok wds' ->
  forall wd, In wd wds ->
    exists wd', In wd' wds' /\ text wd' = text wd
                /\ frequency wd' = frequency wd
                /\ Permutation (wd_books wd) (wd_books wd').
Proof.
  intros Hperm H H' wd Hwd.
  destruct (word_entry bs wds H) as [Hentry _].
  destruct (word_entry bs' wds' H') as [_ Hword'].
  apply Hentry, expectedEntry_Some in Hwd as (Hb & Hc & Hne). simpl in *.
  pose proof (contributors_Permutation (text wd) _ _
                (occurrences_Permutation bs bs' Hperm)) as Hp.
  destruct (expectedEntry (text wd) (occurrences bs')) as [e'|] eqn:E'.
  - destruct (Hword' (text wd) e' E') as (wd' & Hin & Ht & Hf & Hbs).
    apply expectedEntry_Some in E' as (Eb & Ec & _).
    exists wd'. repeat split; try assumption.
    + rewrite Hf, Ec, Hc. symmetry. now apply Permutation_length.
    + now rewrite Hb, Hbs, Eb.
  - unfold expectedEntry in E'.
    destruct (contributors (text wd) (occurrences bs')) eqn:Ec;
      [|discriminate].
    apply Permutation_sym, Permutation_nil in Hp. contradiction.
Qed.

Lemma frequencies_do_not_depend_on_order_witness :
  exists wd',
    In wd' (match indexBooks [bookAnonymous; bookDickens] with
            | Ok wds' => wds'
            | Throw _ => []
            end)
    /\ text wd' = lit "history" /\ frequency wd' = 2.
Proof.
  destruct (frequencies_do_not_depend_on_order
              [bookDickens; bookAnonymous] [bookAnonymous; bookDickens]
              _ _ (perm_swap _ _ _) eq_refl eq_refl
              {| text := lit "history"; frequency := 2;
                 wd_books := [bookDickens; bookAnonymous] |})
    as (wd' & Hin & Ht & Hf & _).
  - right. right. now left.
  - exists wd'. repeat split; assumption.
Defined.
